(** * TesseraKit/Core: ULID and URN identifiers

  A shallow embedding of [src/id/ulid] (constants, encoding, api) and
  [src/id/urn] (constants, errors, api) and the properties of the
  identifier formats.

  Modelling conventions.
  - A JavaScript string is a [string]: a sequence of code units, here the
    code units below 256.  Every string the regular expressions accept and
    every string the encoder produces is ASCII.  [decodeChar], which takes
    any string, is embedded a second time over all sequences of code units
    ([Wide]), with the upper-casing of the host as a parameter.
  - A JavaScript number is a [Z].  All arithmetic in the embedded code is on
    integers below 2^53 in absolute value, where doubles are exact.  A
    number that is no integer (a fraction, NaN, an infinity, the negative
    zero) is outside the model: the statements are about integer
    arguments.
  - A [throw] is the [Throw] case of [result].
  - The wall clock and the random source are read from a [World], threaded
    through the effectful functions. *)

From Stdlib Require Import ZArith List String Ascii Bool Lia Sorted.
Import ListNotations.

Local Open Scope string_scope.
Local Open Scope Z_scope.

(* ================================================================== *)
(** ** JavaScript values, exceptions and the environment *)

Module Js.

(** [code] of [UrnError] (src/id/urn/errors.ts). *)
Inductive UrnErrorCode : Type :=
| INVALID_APP
| INVALID_ENTITY
| INVALID_URN
| PARSE_ERROR.

(** The exceptions the embedded code throws.  Messages are left out; each
    constructor carries the value the source puts in the exception. *)
Inductive exn : Type :=
| RangeError (timestamp : Z)                      (* encodeTime *)
| InvalidCharacter (char : string)                (* decodeChar *)
| InvalidUlid (value : string)                    (* Ulid.parse *)
| UrnError (code : UrnErrorCode) (value : string) (* class UrnError *)
| TypeError.                                      (* method call on undefined *)

Inductive result (A : Type) : Type :=
| Ok (a : A)
| Throw (e : exn).
Arguments Ok {A} a.
Arguments Throw {A} e.

(** The environment: [clock] is the sequence of values [Date.now()] returns,
    [entropy] the sequence of values the random source yields; the two
    counters say how many have been consumed. *)
Record World : Type := mkWorld
  { clock : nat -> Z;
    clock_reads : nat;
    entropy : nat -> Z;
    entropy_used : nat }.

(** Reads of the environment. *)
Definition Env (A : Type) : Type := World -> A * World.

(** Effectful computations: they read the world and may throw. *)
Definition M (A : Type) : Type := World -> result A * World.

Definition ret {A} (a : A) : M A := fun w => (Ok a, w).

Definition throw {A} (e : exn) : M A := fun w => (Throw e, w).

Definition bind {A B} (m : M A) (f : A -> M B) : M B :=
  fun w =>
    match m w with
    | (Ok a, w') => f a w'
    | (Throw e, w') => (Throw e, w')
    end.

Definition lift {A} (r : result A) : M A := fun w => (r, w).

Definition read {A} (e : Env A) : M A :=
  fun w => let (a, w') := e w in (Ok a, w').

(** [Date.now()] *)
Definition Date_now : Env Z :=
  fun w =>
    (clock w (clock_reads w),
     mkWorld (clock w) (S (clock_reads w)) (entropy w) (entropy_used w)).

(** [s.toUpperCase()]: a..z become A..Z.  The other code units below 256
    are left as they are: the upper case of none of them is a string the
    embedded code looks for (a symbol of the alphabet, I, L, O or U). *)
Definition upper_char (c : ascii) : ascii :=
  let n := N_of_ascii c in
  if ((97 <=? n) && (n <=? 122))%N then ascii_of_N (n - 32) else c.

Fixpoint toUpperCase (s : string) : string :=
  match s with
  | EmptyString => EmptyString
  | String c s' => String (upper_char c) (toUpperCase s')
  end.

(** [s.indexOf(x)]: the first position of [x] in [s], or -1. *)
Definition indexOf (s x : string) : Z :=
  match String.index 0 x s with
  | Some n => Z.of_nat n
  | None => -1
  end.

(** [s[i]]: a one-character string, or undefined. *)
Definition at_index (s : string) (i : Z) : option string :=
  if (0 <=? i) && (i <? Z.of_nat (String.length s))
  then Some (String.substring (Z.to_nat i) 1 s)
  else None.

(** An operand of string concatenation: undefined is printed. *)
Definition to_str (o : option string) : string :=
  match o with
  | Some s => s
  | None => "undefined"
  end.

(** [s.split(sep)] for a one-character separator. *)
Fixpoint split (sep : ascii) (s : string) : list string :=
  match s with
  | EmptyString => [EmptyString]
  | String c s' =>
      if Ascii.eqb c sep then EmptyString :: split sep s'
      else match split sep s' with
           | [] => [String c EmptyString]
           | p :: ps => String c p :: ps
           end
  end.

(** [s.split("")]: the one-character strings of [s]. *)
Fixpoint chars_of (s : string) : list string :=
  match s with
  | EmptyString => []
  | String c s' => String c EmptyString :: chars_of s'
  end.

(** [chars.join("")] *)
Definition join (chars : list string) : string := String.concat "" chars.

(** [a === b] and [a < b] on strings: code-unit-wise comparison. *)
Definition str_eq (a b : string) : bool := String.eqb a b.
Definition str_lt (a b : string) : bool := String.ltb a b.

End Js.

Import Js.

Notation "x <- m ;; f" := (Js.bind m (fun x => f))
  (at level 61, m at next level, right associativity).

(* ================================================================== *)
(** ** The regular expressions the source uses *)

Module RegExp.

(** The terms that occur in the patterns of the source. *)
Inductive term : Type :=
| Bol                                   (* ^ *)
| Eol                                   (* $ *)
| Chr (c : ascii)                       (* a literal character *)
| Cls (ranges : list (ascii * ascii))   (* [a-z0-9-] *)
| Quant (lo hi : nat) (t : term).       (* t{lo,hi}, greedy *)

(** A pattern: the terms of its source, one after the other, and the
    [i] flag. *)
Record t : Type := mk
  { source : list term;
    ignoreCase : bool }.

(** Canonicalize of the ECMAScript matcher (no [u] flag): with [i] a
    character is compared through its upper case; a character that is not
    ASCII is never mapped to an ASCII one. *)
Definition canonicalize (ic : bool) (c : ascii) : ascii :=
  if ic then upper_char c else c.

(** The characters [lo..hi] of a class range. *)
Definition range_chars (r : ascii * ascii) : list ascii :=
  let lo := N.to_nat (N_of_ascii (fst r)) in
  let hi := N.to_nat (N_of_ascii (snd r)) in
  map ascii_of_nat (seq lo (S hi - lo)).

(** CharacterSetMatcher: [c] matches when some member of the class has
    the canonical form of [c]. *)
Definition class_mem (ic : bool) (ranges : list (ascii * ascii)) (c : ascii) : bool :=
  existsb
    (fun r =>
       existsb (fun a => Ascii.eqb (canonicalize ic a) (canonicalize ic c))
               (range_chars r))
    ranges.

(** A matcher takes the index [i] of the current position, the rest [s] of
    the input and the continuation [k]: what must match afterwards. *)
Definition matcher : Type := nat -> string -> (nat -> string -> bool) -> bool.

(** Up to [n] more repetitions of [m], as many as possible first. *)
Fixpoint optional (m : matcher) (k : nat -> string -> bool) (n : nat)
         (i : nat) (s : string) : bool :=
  match n with
  | O => k i s
  | S n' => m i s (optional m k n') || k i s
  end.

(** [n] repetitions of [m], then up to [extra] more. *)
Fixpoint required (m : matcher) (k : nat -> string -> bool) (extra n : nat)
         (i : nat) (s : string) : bool :=
  match n with
  | O => optional m k extra i s
  | S n' => m i s (required m k extra n')
  end.

(** The backtracking matcher, in continuation-passing style. *)
Fixpoint match_term (ic : bool) (tm : term) (i : nat) (s : string)
         (k : nat -> string -> bool) {struct tm} : bool :=
  match tm with
  | Bol => Nat.eqb i 0 && k i s
  | Eol => match s with
           | EmptyString => k i s
           | String _ _ => false
           end
  | Chr c =>
      match s with
      | EmptyString => false
      | String a s' =>
          Ascii.eqb (canonicalize ic c) (canonicalize ic a) && k (S i) s'
      end
  | Cls ranges =>
      match s with
      | EmptyString => false
      | String a s' => class_mem ic ranges a && k (S i) s'
      end
  | Quant lo hi u => required (match_term ic u) k (hi - lo) lo i s
  end.

Fixpoint match_seq (ic : bool) (tms : list term) (i : nat) (s : string)
         (k : nat -> string -> bool) : bool :=
  match tms with
  | [] => k i s
  | tm :: rest => match_term ic tm i s (fun i' s' => match_seq ic rest i' s' k)
  end.

(** [re.exec] tries every start position, left to right. *)
Fixpoint search (re : t) (i : nat) (s : string) : bool :=
  match_seq (ignoreCase re) (source re) i s (fun _ _ => true)
  || match s with
     | EmptyString => false
     | String _ s' => search re (S i) s'
     end.

(** [re.test(s)] *)
Definition test (re : t) (s : string) : bool := search re 0 s.

(** [source.slice(1, -1)]: the source without its first and its last
    character, here the two anchors. *)
Definition slice_1_m1 (tms : list term) : list term := removelast (tl tms).

End RegExp.

(* ================================================================== *)
(** ** src/id/ulid: constants *)

Module UlidConstants.

(** Crockford's Base32 alphabet. *)
Definition ENCODING : string := "0123456789ABCDEFGHJKMNPQRSTVWXYZ".

Definition TIME_LENGTH : nat := 10.

Definition RANDOM_LENGTH : nat := 16.

Definition ULID_LENGTH : nat := TIME_LENGTH + RANDOM_LENGTH.

(** [Math.pow(2, 48) - 1] *)
Definition TIME_MAX : Z := 2 ^ 48 - 1.

(** [/^[0-9A-HJKMNP-TV-Z]{26}$/i] *)
Definition ULID_PATTERN : RegExp.t :=
  RegExp.mk
    [ RegExp.Bol;
      RegExp.Quant 26 26
        (RegExp.Cls [("0", "9"); ("A", "H"); ("J", "J"); ("K", "K"); ("M", "M");
                     ("N", "N"); ("P", "T"); ("V", "Z")]%char);
      RegExp.Eol ]
    true.

End UlidConstants.

Import UlidConstants.

(* ================================================================== *)
(** ** src/id/ulid/encoding.ts *)

Module Encoding.

(** [getRandomValues(length)]: [length] bytes of the random source. *)
Definition getRandomValues (length : nat) : Env (list Z) :=
  fun w =>
    (map (fun i => entropy w (entropy_used w + i)%nat mod 256) (seq 0 length),
     mkWorld (clock w) (clock_reads w) (entropy w) (entropy_used w + length)%nat).

(** The loop of [encodeTime]: [n] iterations are left. *)
Fixpoint encodeTime_loop (n : nat) (str : string) (remaining : Z) : string :=
  match n with
  | O => str
  | S n' =>
      let mod_ := Z.rem remaining 32 in
      encodeTime_loop n' (to_str (at_index ENCODING mod_) ++ str) (remaining / 32)
  end.

Definition encodeTime (timestamp : Z) (length : Z) : result string :=
  if (timestamp <? 0) || (timestamp >? TIME_MAX)
  then Throw (RangeError timestamp)
  else Ok (encodeTime_loop (Z.to_nat length) "" timestamp).

(** The loop of [encodeRandom] over the bytes drawn. *)
Fixpoint encodeRandom_loop (bytes : list Z) (str : string) : string :=
  match bytes with
  | [] => str
  | b :: bytes' =>
      encodeRandom_loop bytes' (str ++ to_str (at_index ENCODING (Z.rem b 32)))
  end.

Definition encodeRandom (length : nat) : Env string :=
  fun w =>
    let (bytes, w') := getRandomValues length w in
    (encodeRandom_loop bytes "", w').

Definition decodeChar (char : string) : result Z :=
  let upper := toUpperCase char in
  if str_eq upper "I" || str_eq upper "L" then Ok 1
  else if str_eq upper "O" then Ok 0
  else if str_eq upper "U" then Ok 27
  else
    let index := indexOf ENCODING upper in
    if index =? -1 then Throw (InvalidCharacter char)
    else Ok index.

(** The loop of [decodeTime]: [n] iterations are left, [i] is the index.
    [timeChars[i]!] is undefined past the end of the string, and
    [decodeChar] then fails on [toUpperCase]. *)
Fixpoint decodeTime_loop (n : nat) (i : nat) (timeChars : string) (timestamp : Z)
  : result Z :=
  match n with
  | O => Ok timestamp
  | S n' =>
      match at_index timeChars (Z.of_nat i) with
      | None => Throw TypeError
      | Some c =>
          match decodeChar c with
          | Throw e => Throw e
          | Ok d => decodeTime_loop n' (S i) timeChars (timestamp * 32 + d)
          end
      end
  end.

Definition decodeTime (ulid : string) : result Z :=
  let timeChars := String.substring 0 TIME_LENGTH ulid in
  decodeTime_loop TIME_LENGTH 0 timeChars 0.

End Encoding.

Import Encoding.

(* ================================================================== *)
(** ** src/id/ulid/api.ts *)

Module Ulid.

Definition generate (timestamp : option Z) : M string :=
  time <- match timestamp with
          | Some t => ret t
          | None => read Date_now
          end ;;
  t <- lift (encodeTime time (Z.of_nat TIME_LENGTH)) ;;
  r <- read (encodeRandom RANDOM_LENGTH) ;;
  ret (t ++ r).

Definition isValid (value : string) : bool := RegExp.test ULID_PATTERN value.

Definition parse (value : string) : result string :=
  if negb (isValid value) then Throw (InvalidUlid value) else Ok value.

Definition timestamp (ulid : string) : result Z := decodeTime ulid.

Definition compare (a b : string) : Z :=
  if str_eq a b then 0
  else if str_lt a b then -1 else 1.

(** The state a generator returned by [monotonic()] closes over. *)
Record Sequencer : Type := mkSequencer
  { lastTime : Z;
    lastRandom : string }.

(** [chars[i] = x] *)
Fixpoint set_nth (i : nat) (x : string) (chars : list string) : list string :=
  match chars, i with
  | [], _ => []
  | _ :: cs, O => x :: cs
  | c :: cs, S i' => c :: set_nth i' x cs
  end.

(** The increment loop, [for (let i = chars.length - 1; i >= 0; i--)]:
    the positions below [n] are still to be visited.  [index + 1] is
    between 0 and 31 where it is used, so [ENCODING[index + 1]] is
    defined. *)
Fixpoint increment_loop (n : nat) (chars : list string) : list string :=
  match n with
  | O => chars
  | S i =>
      let index := indexOf ENCODING (nth i chars "") in
      if index <? 31
      then set_nth i (to_str (at_index ENCODING (index + 1))) chars
      else increment_loop i (set_nth i (to_str (at_index ENCODING 0)) chars)
  end.

(** [monotonic()]: the initial state of the closure. *)
Definition monotonic : Sequencer := mkSequencer 0 "".

(** One call of the generator.  The state is updated before [encodeTime]
    runs, so the new state is returned on a throw as well. *)
Definition next (g : Sequencer) (w : World) : result string * Sequencer * World :=
  let (now, w1) := Date_now w in
  let '(g', w2) :=
    if now =? lastTime g
    then
      let chars := chars_of (lastRandom g) in
      let chars := increment_loop (List.length chars) chars in
      (mkSequencer (lastTime g) (join chars), w1)
    else
      let (r, w2) := encodeRandom RANDOM_LENGTH w1 in
      (mkSequencer now r, w2) in
  match encodeTime now (Z.of_nat TIME_LENGTH) with
  | Throw e => (Throw e, g', w2)
  | Ok t => (Ok (t ++ lastRandom g'), g', w2)
  end.

(** [n] successive calls of one generator. *)
Fixpoint calls (n : nat) (g : Sequencer) (w : World)
  : list (result string) * Sequencer * World :=
  match n with
  | O => ([], g, w)
  | S n' =>
      let '(r, g', w') := next g w in
      let '(rs, g'', w'') := calls n' g' w' in
      (r :: rs, g'', w'')
  end.

End Ulid.

(* ================================================================== *)
(** ** src/id/urn: constants and api *)

Module UrnConstants.

Definition lower : ascii * ascii := ("a", "z")%char.
Definition digit : ascii * ascii := ("0", "9")%char.
Definition hyphen : ascii * ascii := ("-", "-")%char.

(** [^[a-z][a-z0-9]{0,31}] and [[a-z][a-z0-9-]{0,63}], as they are spelled
    in the three patterns. *)
Definition app_terms : list RegExp.term :=
  [ RegExp.Cls [lower]; RegExp.Quant 0 31 (RegExp.Cls [lower; digit]) ].

Definition entity_terms : list RegExp.term :=
  [ RegExp.Cls [lower]; RegExp.Quant 0 63 (RegExp.Cls [lower; digit; hyphen]) ].

(** [/^[a-z][a-z0-9]{0,31}$/] *)
Definition APP_PATTERN : RegExp.t :=
  RegExp.mk ([RegExp.Bol] ++ app_terms ++ [RegExp.Eol]) false.

(** [/^[a-z][a-z0-9-]{0,63}$/] *)
Definition ENTITY_PATTERN : RegExp.t :=
  RegExp.mk ([RegExp.Bol] ++ entity_terms ++ [RegExp.Eol]) false.

(** [new RegExp(`^[a-z][a-z0-9]{0,31}:[a-z][a-z0-9-]{0,63}:${ULID_PATTERN.source.slice(1, -1)}$`, "i")] *)
Definition URN_PATTERN : RegExp.t :=
  RegExp.mk
    ([RegExp.Bol] ++ app_terms ++ [RegExp.Chr ":"] ++ entity_terms
       ++ [RegExp.Chr ":"]
       ++ RegExp.slice_1_m1 (RegExp.source ULID_PATTERN)
       ++ [RegExp.Eol])
    true.

End UrnConstants.

Import UrnConstants.

Module Urn.

Record UrnComponents : Type := mkComponents
  { app : string;
    entity : string;
    id : string }.

Record UrnCreateOptions : Type := mkOptions
  { opt_timestamp : option Z;
    opt_id : option string }.

(** [options?.timestamp] and [options?.id] *)
Definition timestamp_of (options : option UrnCreateOptions) : option Z :=
  match options with
  | Some o => opt_timestamp o
  | None => None
  end.

Definition id_of (options : option UrnCreateOptions) : option string :=
  match options with
  | Some o => opt_id o
  | None => None
  end.

Definition create (app entity : string) (options : option UrnCreateOptions)
  : M string :=
  if negb (RegExp.test APP_PATTERN app)
  then throw (UrnError INVALID_APP app)
  else if negb (RegExp.test ENTITY_PATTERN entity)
  then throw (UrnError INVALID_ENTITY entity)
  else
    id <- match id_of options with
          | Some i => ret i
          | None => Ulid.generate (timestamp_of options)
          end ;;
    ret (app ++ ":" ++ entity ++ ":" ++ id).

Definition isValid (value : string) : bool := RegExp.test URN_PATTERN value.

(** [const [app, entity, id] = urn.split(":")]; a missing part is
    undefined, which does not happen for a string [isValid] accepts
    (lemma [split_valid]). *)
Definition parse (urn : string) : result UrnComponents :=
  if negb (isValid urn) then Throw (UrnError INVALID_URN urn)
  else
    let parts := split ":" urn in
    Ok (mkComponents (nth 0 parts "") (nth 1 parts "") (nth 2 parts "")).

End Urn.

(* ================================================================== *)
(** ** Base-32 numerals: the vocabulary of the statements *)

Module Base32.

Definition alphabet : list ascii := list_ascii_of_string ENCODING.

(** The symbol of a digit 0..31. *)
Definition digit_char (d : Z) : ascii := nth (Z.to_nat d) alphabet "0"%char.

(** The digit of a symbol: its position in the alphabet. *)
Definition digit_value (c : ascii) : Z := indexOf ENCODING (String c "").

Definition is_symbol (c : ascii) : bool := existsb (Ascii.eqb c) alphabet.

(** A string over the (upper-case) alphabet. *)
Fixpoint canonical (s : string) : bool :=
  match s with
  | EmptyString => true
  | String c s' => is_symbol c && canonical s'
  end.

(** The number a canonical string denotes, most significant digit first. *)
Fixpoint value_of (s : string) : Z :=
  match s with
  | EmptyString => 0
  | String c s' => digit_value c * 32 ^ Z.of_nat (String.length s') + value_of s'
  end.

(** The [n] least significant base-32 digits of [v], most significant
    first. *)
Fixpoint digits (n : nat) (v : Z) : string :=
  match n with
  | O => EmptyString
  | S n' => digits n' (v / 32) ++ String (digit_char (v mod 32)) EmptyString
  end.

(** A canonical ULID string: 26 symbols of the alphabet. *)
Definition canonical_ulid (s : string) : Prop :=
  String.length s = ULID_LENGTH /\ canonical s = true.

(** The random portion of a ULID string, [s.slice(10)]. *)
Definition random_part (s : string) : string :=
  String.substring TIME_LENGTH RANDOM_LENGTH s.

(** A world for the examples: the clock stands at [t], the random source
    yields [b] forever. *)
Definition steady_world (t b : Z) : World :=
  mkWorld (fun _ => t) 0 (fun _ => b) 0.

(** A world whose clock reads 5, then [t]; the random source counts. *)
Definition regressing_world (t : Z) : World :=
  mkWorld (fun i => if Nat.eqb i 0 then 5 else t) 0 (fun i => Z.of_nat i) 0.

(** The symbols of a list of bytes, each taken modulo 32. *)
Fixpoint random_digits (bytes : list Z) : string :=
  match bytes with
  | [] => EmptyString
  | b :: bytes' => String (digit_char (b mod 32)) (random_digits bytes')
  end.

(** Strictly increasing lists of identifiers, in the order of [<] on
    strings. *)
Definition increasing (ids : list string) : Prop :=
  StronglySorted (fun a b => str_lt a b = true) ids.

(** The strings of a list, one after the other. *)
Fixpoint concat_all (l : list string) : string :=
  match l with
  | [] => EmptyString
  | x :: l' => x ++ concat_all l'
  end.

End Base32.

Import Base32.

(* ================================================================== *)
(** ** The grammars of the identifiers: the vocabulary of the statements *)

Module Grammar.

Definition is_lower (c : ascii) : bool :=
  let n := N_of_ascii c in ((97 <=? n) && (n <=? 122))%N.

Definition is_upper (c : ascii) : bool :=
  let n := N_of_ascii c in ((65 <=? n) && (n <=? 90))%N.

Definition is_digit (c : ascii) : bool :=
  let n := N_of_ascii c in ((48 <=? n) && (n <=? 57))%N.

Definition is_hyphen (c : ascii) : bool := Ascii.eqb c "-".

Definition is_letter (c : ascii) : bool := is_lower c || is_upper c.

Fixpoint all_chars (P : ascii -> bool) (s : string) : bool :=
  match s with
  | EmptyString => true
  | String c s' => P c && all_chars P s'
  end.

(** One character of [first], then at most [hi] characters of [rest]. *)
Definition name_shape (first rest : ascii -> bool) (hi : nat) (s : string) : bool :=
  match s with
  | EmptyString => false
  | String c p =>
      first c && (all_chars rest p && (String.length p <=? hi)%nat)
  end.

(** [^[a-z][a-z0-9]{0,31}$] *)
Definition app_name : string -> bool :=
  name_shape is_lower (fun c => is_lower c || is_digit c) 31.

(** [^[a-z][a-z0-9-]{0,63}$] *)
Definition entity_name : string -> bool :=
  name_shape is_lower (fun c => is_lower c || is_digit c || is_hyphen c) 63.

(** The same two, with letters of either case. *)
Definition app_name_i : string -> bool :=
  name_shape is_letter (fun c => is_letter c || is_digit c) 31.

Definition entity_name_i : string -> bool :=
  name_shape is_letter (fun c => is_letter c || is_digit c || is_hyphen c) 63.

(** 26 symbols of the alphabet, in either case. *)
Definition ulid_text (s : string) : bool :=
  (String.length s =? 26)%nat && all_chars (fun c => is_symbol (upper_char c)) s.

(** app ':' entity ':' ulid, for given languages of app and entity. *)
Definition urn_shape (app_ok entity_ok : string -> bool) (s : string) : Prop :=
  exists a e u,
    s = a ++ ":" ++ e ++ ":" ++ u
    /\ app_ok a = true /\ entity_ok e = true /\ ulid_text u = true.

(** The grammar of a URN: app and entity in lower case, the ulid segment in
    either case. *)
Definition urn_grammar : string -> Prop := urn_shape app_name entity_name.

(** The same with app and entity in either case. *)
Definition urn_grammar_i : string -> Prop := urn_shape app_name_i entity_name_i.

Definition no_colon (c : ascii) : bool := negb (Ascii.eqb c ":").

End Grammar.

Import Grammar.

(* ================================================================== *)
(** ** Effect: the part of the library the source uses *)

Module Effect.

(** How a run of an effect ends: with a value, with a typed failure
    ([Effect.fail]), or with a defect, an exception thrown inside
    [Effect.sync]. *)
Inductive Exit (A : Type) : Type :=
| Success (a : A)
| Failure (e : exn)
| Die (e : exn).
Arguments Success {A} a.
Arguments Failure {A} e.
Arguments Die {A} e.

(** An effect is run against the world. *)
Definition t (A : Type) : Type := World -> Exit A * World.

Definition succeed {A} (a : A) : t A := fun w => (Success a, w).

Definition fail {A} (e : exn) : t A := fun w => (Failure e, w).

(** [Effect.sync(() => m)] *)
Definition sync {A} (m : M A) : t A :=
  fun w =>
    match m w with
    | (Ok a, w') => (Success a, w')
    | (Throw e, w') => (Die e, w')
    end.

Definition flatMap {A B} (f : A -> t B) (e : t A) : t B :=
  fun w =>
    match e w with
    | (Success a, w') => f a w'
    | (Failure x, w') => (Failure x, w')
    | (Die x, w') => (Die x, w')
    end.

Definition map {A B} (f : A -> B) (e : t A) : t B :=
  flatMap (fun a => succeed (f a)) e.

(** [Effect.all([e1, e2])]: one after the other, stopping at the first
    that does not succeed. *)
Definition all2 {A B} (e1 : t A) (e2 : t B) : t (A * B) :=
  flatMap (fun a => map (fun b => (a, b)) e2) e1.

End Effect.

(* ================================================================== *)
(** ** src/id/urn/validators.ts and the rest of src/id/urn/api.ts *)

Module UrnValidators.

Definition validateApp (app : string) : Effect.t string :=
  if negb (RegExp.test APP_PATTERN app)
  then Effect.fail (UrnError INVALID_APP app)
  else Effect.succeed app.

Definition validateEntity (entity : string) : Effect.t string :=
  if negb (RegExp.test ENTITY_PATTERN entity)
  then Effect.fail (UrnError INVALID_ENTITY entity)
  else Effect.succeed entity.

End UrnValidators.

Import UrnValidators.

Module UrnApi.

(** [Ulid.generateEffect] *)
Definition generateEffect (timestamp : option Z) : Effect.t string :=
  Effect.sync (Ulid.generate timestamp).

(** [Urn.createEffect]: the ULID is generated whether or not the options
    carry an identifier. *)
Definition createEffect (app entity : string)
           (options : option Urn.UrnCreateOptions) : Effect.t string :=
  Effect.flatMap
    (fun valid : string * string =>
       let (validApp, validEntity) := valid in
       Effect.map
         (fun id =>
            validApp ++ ":" ++ validEntity ++ ":"
            ++ match Urn.id_of options with
               | Some i => i
               | None => id
               end)
         (generateEffect (Urn.timestamp_of options)))
    (Effect.all2 (validateApp app) (validateEntity entity)).

(** [Urn.parseEffect]: [Urn.parse(value)] is evaluated when the effect is
    built, so a throw of it would come out of [parseEffect] itself. *)
Definition parseEffect (value : string) : result (Effect.t Urn.UrnComponents) :=
  if Urn.isValid value
  then match Urn.parse value with
       | Ok c => Ok (Effect.succeed c)
       | Throw e => Throw e
       end
  else Ok (Effect.fail (UrnError PARSE_ERROR value)).

(** [Urn.parseSafe] *)
Definition parseSafe (value : string) : result (option Urn.UrnComponents) :=
  if negb (Urn.isValid value) then Ok None
  else match Urn.parse value with
       | Ok c => Ok (Some c)
       | Throw e => Throw e
       end.

(** [Urn.app], [Urn.entity], [Urn.id] *)
Definition app (urn : string) : result string :=
  match Urn.parse urn with
  | Ok c => Ok (Urn.app c)
  | Throw e => Throw e
  end.

Definition entity (urn : string) : result string :=
  match Urn.parse urn with
  | Ok c => Ok (Urn.entity c)
  | Throw e => Throw e
  end.

Definition id (urn : string) : result string :=
  match Urn.parse urn with
  | Ok c => Ok (Urn.id c)
  | Throw e => Throw e
  end.

(** [Urn.timestamp] *)
Definition timestamp (urn : string) : result Z :=
  match id urn with
  | Ok i => Ulid.timestamp i
  | Throw e => Throw e
  end.

(** [Urn.isApp], [Urn.isEntity] *)
Definition isApp (urn app_ : string) : result bool :=
  match app urn with
  | Ok a => Ok (str_eq a app_)
  | Throw e => Throw e
  end.

Definition isEntity (urn entity_ : string) : result bool :=
  match entity urn with
  | Ok a => Ok (str_eq a entity_)
  | Throw e => Throw e
  end.

(** [Urn.matches]: [&&] evaluates [isEntity] only when [isApp] is true. *)
Definition matches (urn app_ entity_ : string) : result bool :=
  match isApp urn app_ with
  | Ok true => isEntity urn entity_
  | Ok false => Ok false
  | Throw e => Throw e
  end.

(** [Urn.forApp]: the check of the app, then the generator for it. *)
Definition forApp (app_ : string)
  : result (string -> option Urn.UrnCreateOptions -> M string) :=
  if negb (RegExp.test APP_PATTERN app_)
  then Throw (UrnError INVALID_APP app_)
  else Ok (fun entity_ options => Urn.create app_ entity_ options).

(** [Urn.forAppEffect] *)
Definition forAppEffect (app_ : string)
  : Effect.t (string -> option Urn.UrnCreateOptions -> M string) :=
  Effect.map
    (fun validApp => fun entity_ options => Urn.create validApp entity_ options)
    (validateApp app_).

(** [Urn.compare]: the identifier of [a] is extracted first. *)
Definition compare (a b : string) : result Z :=
  match id a with
  | Throw e => Throw e
  | Ok ia =>
      match id b with
      | Throw e => Throw e
      | Ok ib => Ok (Ulid.compare ia ib)
      end
  end.

(** [Urn.equals] *)
Definition equals (a b : string) : bool := str_eq a b.

End UrnApi.

(* ================================================================== *)
(** ** src/schema/pagination: constants and utils *)

Module Pagination.

Definition DEFAULT_LIMIT : Z := 20.
Definition MAX_LIMIT : Z := 100.
Definition DEFAULT_OFFSET : Z := 0.

Inductive SortDirection : Type := asc | desc.

(** [Partial<PaginationParams>] *)
Record PaginationParams : Type := mkParams
  { limit : option Z;
    offset : option Z;
    sortBy : option string;
    sortDirection : option SortDirection }.

(** The result of [normalizePaginationParams]: limit and offset are
    present. *)
Record NormalizedParams : Type := mkNormalized
  { n_limit : Z;
    n_offset : Z;
    n_sortBy : option string;
    n_sortDirection : SortDirection }.

(** The default of the parameter, [params = {}]. *)
Definition no_params : PaginationParams := mkParams None None None None.

Definition or_default {A} (o : option A) (d : A) : A :=
  match o with
  | Some a => a
  | None => d
  end.

Definition normalizePaginationParams (params : option PaginationParams)
  : NormalizedParams :=
  let params := or_default params no_params in
  mkNormalized
    (Z.min (or_default (limit params) DEFAULT_LIMIT) MAX_LIMIT)
    (or_default (offset params) DEFAULT_OFFSET)
    (sortBy params)
    (or_default (sortDirection params) asc).

(** The numbers of this module are integers in the range where doubles
    are exact, and -0 is not told from 0.  A page number is what rounding a
    quotient of two of them gives: an integer, or what a division by zero
    gives. *)
Inductive num : Type :=
| Int (z : Z)
| Infinity
| NegInfinity
| NaN.

(** [Math.ceil(a / b)] on integers. *)
Definition ceil_div (a b : Z) : num :=
  if b =? 0
  then (if 0 <? a then Infinity else if a <? 0 then NegInfinity else NaN)
  else Int (- ((- a) / b)).

(** [Math.floor(a / b) + 1] on integers. *)
Definition floor_div_plus_1 (a b : Z) : num :=
  if b =? 0
  then (if 0 <? a then Infinity else if a <? 0 then NegInfinity else NaN)
  else Int (a / b + 1).

Record PaginationMeta : Type := mkMeta
  { total : Z;
    m_limit : Z;
    m_offset : Z;
    hasMore : bool;
    totalPages : num;
    currentPage : num }.

Definition createPaginationMeta (total limit offset : Z) : PaginationMeta :=
  let totalPages := ceil_div total limit in
  let currentPage := floor_div_plus_1 offset limit in
  let hasMore := offset + limit <? total in
  mkMeta total limit offset hasMore totalPages currentPage.

Record PaginatedResponse (T : Type) : Type := mkResponse
  { data : list T;
    meta : PaginationMeta }.
Arguments mkResponse {T} data meta.
Arguments data {T} p.
Arguments meta {T} p.

(** [params] is [Pick<PaginationParams, "limit" | "offset">]. *)
Definition createPaginatedResponse {T} (data : list T) (total : Z)
           (params : PaginationParams) : PaginatedResponse T :=
  mkResponse data
    (createPaginationMeta total
       (or_default (limit params) DEFAULT_LIMIT)
       (or_default (offset params) DEFAULT_OFFSET)).

End Pagination.

(* ================================================================== *)
(** ** Decoding a prefix: the vocabulary of the statements on [decodeTime] *)

Module Decoding.

(** The first [n] characters of [s], decoded one by one from the left into
    the accumulator; a missing character is the method call on undefined. *)
Fixpoint decode_prefix (n : nat) (s : string) (acc : Z) : result Z :=
  match n with
  | O => Ok acc
  | S n' =>
      match s with
      | EmptyString => Throw TypeError
      | String c s' =>
          match decodeChar (String c EmptyString) with
          | Throw e => Throw e
          | Ok d => decode_prefix n' s' (acc * 32 + d)
          end
      end
  end.

(** The first character of a string satisfies [P]. *)
Definition first_char (P : ascii -> bool) (s : string) : bool :=
  match s with
  | EmptyString => false
  | String c _ => P c
  end.

End Decoding.

Import Decoding.

(* ================================================================== *)
(** ** Worlds for the examples *)

Module Worlds.

(** The clock reads [t1], then [t2] for ever; the random source counts. *)
Definition two_reads (t1 t2 : Z) : World :=
  mkWorld (fun i => if Nat.eqb i 0 then t1 else t2) 0 (fun i => Z.of_nat i) 0.

(** The world after [reads] clock reads and [used] random values. *)
Definition later (w : World) (reads used : nat) : World :=
  mkWorld (clock w) reads (entropy w) used.

End Worlds.

Import Worlds.

(* ================================================================== *)
(** ** [decodeChar] on the strings of the host

    A string of the host is a sequence of 16-bit code units, and
    [toUpperCase] is the upper-casing of Unicode: a table of the host, not
    of the repository, under which one code unit can become several
    (U+FB06, the ligature st, becomes ST).  Here [decodeChar] is embedded
    over all sequences of code units, with the upper-casing of the host as
    a parameter: what is proved of it holds whatever that function is.
    The strings of [Js] are the sequences of code units below 256. *)

Module Wide.

Definition code_unit : Type := N.

Definition ustring : Type := list code_unit.

(** The string of [Js] as a sequence of code units. *)
Definition of_string (s : string) : ustring :=
  List.map N_of_ascii (list_ascii_of_string s).

(** [a === b] on strings. *)
Fixpoint ustr_eq (a b : ustring) : bool :=
  match a, b with
  | [], [] => true
  | x :: a', y :: b' => (x =? y)%N && ustr_eq a' b'
  | _, _ => false
  end.

(** Whether [x] is read at the start of [s]. *)
Fixpoint starts_with (s x : ustring) {struct x} : bool :=
  match x, s with
  | [], _ => true
  | a :: x', b :: s' => (a =? b)%N && starts_with s' x'
  | _ :: _, [] => false
  end.

(** [s.indexOf(x)]: the first position at which [x] is read in [s], or -1;
    [i] is the position of the start of [s]. *)
Fixpoint indexOf_from (i : Z) (s x : ustring) : Z :=
  if starts_with s x then i
  else match s with
       | [] => -1
       | _ :: s' => indexOf_from (i + 1) s' x
       end.

Definition indexOf (s x : ustring) : Z := indexOf_from 0 s x.

Definition ENCODING : ustring := of_string UlidConstants.ENCODING.

(** What a call of [decodeChar] does: it returns a number, or throws the
    Error whose message ends with the argument. *)
Inductive outcome : Type :=
| Returns (index : Z)
| Throws (char : ustring).

Definition decodeChar (toUpperCase : ustring -> ustring) (char : ustring)
  : outcome :=
  let upper := toUpperCase char in
  if ustr_eq upper (of_string "I") || ustr_eq upper (of_string "L")
  then Returns 1
  else if ustr_eq upper (of_string "O") then Returns 0
  else if ustr_eq upper (of_string "U") then Returns 27
  else
    let index := indexOf ENCODING upper in
    if index =? -1 then Throws char
    else Returns index.

(** An excerpt of the upper-casing of the host, for the examples: a..z
    become A..Z, U+0131 (dotless i) becomes I, U+017F (long s) becomes S,
    U+FB05 and U+FB06 (the ligatures of s and t) become ST; every other
    code unit is left as it is here.  On the code units below 256 it is
    the [toUpperCase] of [Js]. *)
Definition upper_unit (n : code_unit) : ustring :=
  if ((97 <=? n) && (n <=? 122))%N then [(n - 32)%N]
  else if (n =? 305)%N then [73%N]
  else if (n =? 383)%N then [83%N]
  else if ((n =? 64261) || (n =? 64262))%N then [83%N; 84%N]
  else [n].

Definition upper_excerpt (s : ustring) : ustring := flat_map upper_unit s.

(** The result of the [decodeChar] of [Encoding] among the outcomes. *)
Definition of_result (char : string) (r : result Z) : outcome :=
  match r with
  | Ok index => Returns index
  | Throw _ => Throws (of_string char)
  end.

End Wide.

(* ================================================================== *)
(** ** Strings *)

Section StringFacts.

Lemma append_assoc (a b c : string) : (a ++ b) ++ c = a ++ (b ++ c).
Proof. induction a as [|x a IH]; simpl; [reflexivity | now rewrite IH]. Qed.

Lemma append_empty_r (a : string) : a ++ "" = a.
Proof. induction a as [|x a IH]; simpl; [reflexivity | now rewrite IH]. Qed.

Lemma length_append (a b : string) :
  String.length (a ++ b) = (String.length a + String.length b)%nat.
Proof. induction a as [|x a IH]; simpl; [reflexivity | now rewrite IH]. Qed.

Lemma substring_0_append (a b : string) :
  String.substring 0 (String.length a) (a ++ b) = a.
Proof. induction a as [|x a IH]; simpl; [now destruct b | now rewrite IH]. Qed.

Lemma substring_skip_append (a b : string) (m : nat) :
  String.substring (String.length a) m (a ++ b) = String.substring 0 m b.
Proof. induction a as [|x a IH]; simpl; [reflexivity | exact IH]. Qed.

Lemma substring_0_length (a : string) :
  String.substring 0 (String.length a) a = a.
Proof. induction a as [|x a IH]; simpl; [reflexivity | now rewrite IH]. Qed.

(** A string splits at any position within it. *)
Lemma split_at (n : nat) (s : string) :
  (n <= String.length s)%nat ->
  exists a b, s = a ++ b /\ String.length a = n.
Proof.
  revert s; induction n as [|n IH]; intros s Hn.
  - exists "", s; split; reflexivity.
  - destruct s as [|c s]; simpl in Hn; [lia|].
    destruct (IH s) as (a & b & -> & Hl); [lia|].
    exists (String c a), b; split; simpl; [reflexivity | now rewrite Hl].
Qed.

Lemma at_index_append_mid (p : string) (c : ascii) (r : string) :
  at_index (p ++ String c r) (Z.of_nat (String.length p)) = Some (String c "").
Proof.
  unfold at_index.
  rewrite length_append; simpl String.length.
  replace ((0 <=? Z.of_nat (String.length p))
           && (Z.of_nat (String.length p)
               <? Z.of_nat (String.length p + S (String.length r))))
    with true by (symmetry; apply andb_true_iff; split;
                  [apply Z.leb_le | apply Z.ltb_lt]; lia).
  rewrite Nat2Z.id, substring_skip_append; simpl.
  now destruct r.
Qed.

Lemma at_index_past_end (s : string) (i : Z) :
  Z.of_nat (String.length s) <= i -> at_index s i = None.
Proof.
  intros H; unfold at_index.
  replace (i <? Z.of_nat (String.length s)) with false
    by (symmetry; apply Z.ltb_ge; lia).
  now rewrite andb_false_r.
Qed.

Lemma chars_of_append (a b : string) :
  chars_of (a ++ b) = (chars_of a ++ chars_of b)%list.
Proof. induction a as [|x a IH]; simpl; [reflexivity | now rewrite IH]. Qed.

Lemma length_chars_of (a : string) :
  List.length (chars_of a) = String.length a.
Proof. induction a as [|x a IH]; simpl; [reflexivity | now rewrite IH]. Qed.

Lemma join_concat_all (l : list string) : join l = concat_all l.
Proof.
  unfold join; induction l as [|x l IH]; [reflexivity|].
  destruct l as [|y l]; simpl in *.
  - now rewrite append_empty_r.
  - now rewrite IH.
Qed.

Lemma concat_all_app (l1 l2 : list string) :
  concat_all (l1 ++ l2) = concat_all l1 ++ concat_all l2.
Proof.
  induction l1 as [|x l1 IH]; simpl; [reflexivity|].
  now rewrite IH, append_assoc.
Qed.

Lemma concat_all_chars_of (s : string) : concat_all (chars_of s) = s.
Proof. induction s as [|c s IH]; simpl; [reflexivity | now rewrite IH]. Qed.

(** Comparison of strings with a common-length prefix part. *)
Lemma compare_append (a b x y : string) :
  String.length a = String.length b ->
  String.compare (a ++ x) (b ++ y) =
    match String.compare a b with
    | Eq => String.compare x y
    | c => c
    end.
Proof.
  revert b; induction a as [|c a IH]; intros [|d b] Hl; simpl in *;
    try discriminate; [reflexivity|].
  destruct (Ascii.compare c d); [apply IH; lia | reflexivity | reflexivity].
Qed.

Lemma compare_refl (a : string) : String.compare a a = Eq.
Proof.
  induction a as [|c a IH]; simpl; [reflexivity|].
  unfold Ascii.compare; now rewrite N.compare_refl.
Qed.

End StringFacts.

(* ================================================================== *)
(** ** The alphabet *)

Section Alphabet.

(** Case analysis on a digit. *)
Lemma digit_cases (P : Z -> Prop) :
  (forall n, (n < 32)%nat -> P (Z.of_nat n)) ->
  forall d, 0 <= d < 32 -> P d.
Proof.
  intros H d Hd. rewrite <- (Z2Nat.id d) by lia. apply H. lia.
Qed.

Ltac each_digit n :=
  do 32 (destruct n as [|n]; [vm_compute; try reflexivity; auto|]); lia.

Lemma symbol_at (d : Z) :
  0 <= d < 32 ->
  to_str (at_index ENCODING d) = String (digit_char d) "".
Proof.
  revert d; apply digit_cases; intros n Hn. each_digit n.
Qed.

Lemma digit_char_symbol (d : Z) : 0 <= d < 32 -> is_symbol (digit_char d) = true.
Proof.
  revert d; apply digit_cases; intros n Hn. each_digit n.
Qed.

Lemma digit_value_char (d : Z) : 0 <= d < 32 -> digit_value (digit_char d) = d.
Proof.
  revert d; apply digit_cases; intros n Hn. each_digit n.
Qed.

Lemma decodeChar_digit (d : Z) :
  0 <= d < 32 -> decodeChar (String (digit_char d) "") = Ok d.
Proof.
  revert d; apply digit_cases; intros n Hn. each_digit n.
Qed.

(** Every symbol is the symbol of a digit. *)
Lemma symbol_digit (c : ascii) :
  is_symbol c = true -> exists d, 0 <= d < 32 /\ c = digit_char d.
Proof.
  unfold is_symbol; intros H.
  apply existsb_exists in H; destruct H as (x & Hin & Heq).
  apply Ascii.eqb_eq in Heq; subst x.
  destruct (In_nth _ _ "0"%char Hin) as (n & Hn & Hnth).
  exists (Z.of_nat n); split.
  - change (List.length alphabet) with 32%nat in Hn; lia.
  - unfold digit_char; now rewrite Nat2Z.id.
Qed.

Lemma digit_value_range (c : ascii) :
  is_symbol c = true -> 0 <= digit_value c < 32.
Proof.
  intros H; destruct (symbol_digit c H) as (d & Hd & ->).
  now rewrite digit_value_char.
Qed.

(** The alphabet is strictly increasing in character code: one step. *)
Lemma digit_char_step (d : Z) :
  0 <= d < 31 -> Ascii.compare (digit_char d) (digit_char (d + 1)) = Lt.
Proof.
  intros Hd. assert (H : 0 <= d < 32) by lia. revert d H Hd.
  apply (digit_cases (fun d => 0 <= d < 31 ->
           Ascii.compare (digit_char d) (digit_char (d + 1)) = Lt)).
  intros n Hn.
  do 31 (destruct n as [|n]; [intros _; vm_compute; reflexivity|]).
  intros H; lia.
Qed.

Lemma ascii_compare_trans (a b c : ascii) :
  Ascii.compare a b = Lt -> Ascii.compare b c = Lt -> Ascii.compare a c = Lt.
Proof.
  unfold Ascii.compare; rewrite !N.compare_lt_iff; lia.
Qed.

Lemma digit_char_lt (d e : Z) :
  0 <= d -> d < e -> e < 32 ->
  Ascii.compare (digit_char d) (digit_char e) = Lt.
Proof.
  intros Hd Hlt He.
  replace e with (d + 1 + Z.of_nat (Z.to_nat (e - d - 1))) in * by lia.
  induction (Z.to_nat (e - d - 1)) as [|k IH].
  - rewrite Z.add_0_r. apply digit_char_step; lia.
  - eapply ascii_compare_trans; [apply IH; lia|].
    replace (d + 1 + Z.of_nat (S k)) with (d + 1 + Z.of_nat k + 1) by lia.
    apply digit_char_step; lia.
Qed.

(** The order of the symbols is the order of the digits. *)
Lemma digit_char_compare (d e : Z) :
  0 <= d < 32 -> 0 <= e < 32 ->
  Ascii.compare (digit_char d) (digit_char e) = Z.compare d e.
Proof.
  intros Hd He. destruct (Z.compare_spec d e) as [->|H|H].
  - unfold Ascii.compare; apply N.compare_refl.
  - apply digit_char_lt; lia.
  - rewrite Ascii.compare_antisym, digit_char_lt by lia; reflexivity.
Qed.

End Alphabet.

(* ================================================================== *)
(** ** Numerals: [digits] and [value_of] *)

Section Numerals.

Lemma length_digits (n : nat) (v : Z) : String.length (digits n v) = n.
Proof.
  revert v; induction n as [|n IH]; intros v; simpl; [reflexivity|].
  rewrite length_append, IH; simpl; lia.
Qed.

Lemma canonical_append (a b : string) :
  canonical (a ++ b) = canonical a && canonical b.
Proof.
  induction a as [|c a IH]; simpl; [reflexivity|].
  now rewrite IH, andb_assoc.
Qed.

Lemma canonical_digits (n : nat) (v : Z) : canonical (digits n v) = true.
Proof.
  revert v; induction n as [|n IH]; intros v; simpl; [reflexivity|].
  rewrite canonical_append, IH; simpl.
  rewrite digit_char_symbol; [reflexivity|].
  apply Z.mod_pos_bound; lia.
Qed.

Lemma value_of_append (a b : string) :
  value_of (a ++ b) = value_of a * 32 ^ Z.of_nat (String.length b) + value_of b.
Proof.
  induction a as [|c a IH]; simpl; [lia|].
  rewrite IH, length_append, Nat2Z.inj_add, Z.pow_add_r by lia. ring.
Qed.

Lemma value_of_range (s : string) :
  canonical s = true -> 0 <= value_of s < 32 ^ Z.of_nat (String.length s).
Proof.
  induction s as [|c s IH]; cbn [canonical value_of String.length]; intros H.
  - change (32 ^ Z.of_nat 0) with 1; lia.
  - apply andb_true_iff in H; destruct H as [Hc Hs].
    pose proof (digit_value_range c Hc) as Hd.
    specialize (IH Hs).
    rewrite Nat2Z.inj_succ, Z.pow_succ_r by lia.
    nia.
Qed.

Lemma value_of_digits (n : nat) (v : Z) :
  value_of (digits n v) = v mod 32 ^ Z.of_nat n.
Proof.
  revert v; induction n as [|n IH]; intros v.
  - simpl; now rewrite Z.mod_1_r.
  - cbn [digits]. rewrite value_of_append, IH; cbn [value_of String.length].
    rewrite digit_value_char by (apply Z.mod_pos_bound; lia).
    change (32 ^ Z.of_nat 1) with 32.
    change (32 ^ Z.of_nat 0) with 1.
    rewrite Nat2Z.inj_succ, Z.pow_succ_r by lia.
    rewrite Z.rem_mul_r by (try lia; apply Z.pow_pos_nonneg; lia).
    lia.
Qed.

(** The most significant digit comes first. *)
Lemma digits_head (n : nat) (v : Z) :
  digits (S n) v =
    String (digit_char (v / 32 ^ Z.of_nat n mod 32)) (digits n v).
Proof.
  revert v; induction n as [|n IH]; intros v.
  - simpl. now rewrite Z.div_1_r.
  - change (digits (S (S n)) v)
      with (digits (S n) (v / 32) ++ String (digit_char (v mod 32)) "").
    rewrite IH. cbn [String.append digits].
    rewrite Z.div_div by lia.
    rewrite Nat2Z.inj_succ, Z.pow_succ_r by lia. reflexivity.
Qed.

(** The [n] low digits ignore what lies above them. *)
Lemma digits_add_high (n : nat) (q v : Z) :
  digits n (q * 32 ^ Z.of_nat n + v) = digits n v.
Proof.
  revert q v; induction n as [|n IH]; intros q v; [reflexivity|].
  cbn [digits]. rewrite Nat2Z.inj_succ, Z.pow_succ_r by lia.
  replace (q * (32 * 32 ^ Z.of_nat n) + v)
    with (v + (q * 32 ^ Z.of_nat n) * 32) by ring.
  rewrite Z.div_add, Z.mod_add by lia.
  now rewrite (Z.add_comm (v / 32)), IH.
Qed.

Lemma digits_value_of (s : string) :
  canonical s = true -> digits (String.length s) (value_of s) = s.
Proof.
  induction s as [|c s IH]; intros H; [reflexivity|].
  cbn [canonical] in H; apply andb_true_iff in H; destruct H as [Hc Hs].
  cbn [String.length]. rewrite digits_head. cbn [value_of].
  pose proof (value_of_range s Hs) as Hr.
  pose proof (digit_value_range c Hc) as Hd.
  f_equal.
  - rewrite Z.div_add_l by lia.
    rewrite (Z.div_small (value_of s)) by lia.
    rewrite Z.add_0_r, Z.mod_small by lia.
    destruct (symbol_digit c Hc) as (d & Hdr & ->).
    now rewrite digit_value_char.
  - now rewrite digits_add_high, IH.
Qed.

(** On canonical strings of one length, the order of the strings is the
    order of the numbers. *)
Lemma compare_canonical (a b : string) :
  canonical a = true -> canonical b = true ->
  String.length a = String.length b ->
  String.compare a b = Z.compare (value_of a) (value_of b).
Proof.
  revert b; induction a as [|c a IH]; intros [|d b] Ha Hb Hl;
    try discriminate; [reflexivity|].
  cbn [canonical] in Ha, Hb.
  apply andb_true_iff in Ha; destruct Ha as [Hc Ha].
  apply andb_true_iff in Hb; destruct Hb as [Hd Hb].
  cbn [String.length] in Hl. injection Hl as Hl.
  cbn [String.compare value_of]. rewrite <- Hl.
  pose proof (value_of_range a Ha) as Hra.
  pose proof (value_of_range b Hb) as Hrb. rewrite <- Hl in Hrb.
  pose proof (digit_value_range c Hc) as Hvc.
  pose proof (digit_value_range d Hd) as Hvd.
  destruct (symbol_digit c Hc) as (x & Hx & Ex).
  destruct (symbol_digit d Hd) as (y & Hy & Ey).
  rewrite Ex at 1. rewrite Ey at 1.
  rewrite digit_char_compare by assumption.
  assert (Ec : digit_value c = x) by (subst c; now apply digit_value_char).
  assert (Ed : digit_value d = y) by (subst d; now apply digit_value_char).
  rewrite Ec, Ed.
  destruct (Z.compare_spec x y) as [E|L|G].
  - subst y. rewrite (IH b Ha Hb Hl).
    destruct (Z.compare_spec (value_of a) (value_of b)) as [E'|L'|G'];
      symmetry; [apply Z.compare_eq_iff | apply Z.compare_lt_iff
                | apply Z.compare_gt_iff]; nia.
  - symmetry; apply Z.compare_lt_iff; nia.
  - symmetry; apply Z.compare_gt_iff; nia.
Qed.

Lemma compare_digits (n : nat) (u v : Z) :
  0 <= u < 32 ^ Z.of_nat n -> 0 <= v < 32 ^ Z.of_nat n ->
  String.compare (digits n u) (digits n v) = Z.compare u v.
Proof.
  intros Hu Hv.
  rewrite compare_canonical
    by (try apply canonical_digits; now rewrite !length_digits).
  now rewrite !value_of_digits, !Z.mod_small.
Qed.

End Numerals.

(* ================================================================== *)
(** ** The codec: [encodeTime], [encodeRandom], [decodeTime] *)

Section Codec.

Lemma encodeTime_loop_digits (n : nat) (str : string) (remaining : Z) :
  0 <= remaining ->
  encodeTime_loop n str remaining = digits n remaining ++ str.
Proof.
  revert str remaining; induction n as [|n IH]; intros str r Hr;
    [reflexivity|].
  cbn [encodeTime_loop digits].
  rewrite Z.rem_mod_nonneg by lia.
  rewrite symbol_at by (apply Z.mod_pos_bound; lia).
  rewrite IH by (apply Z.div_pos; lia).
  now rewrite append_assoc.
Qed.

Lemma encodeTime_in_range (timestamp : Z) (length : Z) :
  0 <= timestamp <= TIME_MAX ->
  encodeTime timestamp length = Ok (digits (Z.to_nat length) timestamp).
Proof.
  intros H; unfold encodeTime.
  replace (timestamp <? 0) with false by (symmetry; apply Z.ltb_ge; lia).
  replace (timestamp >? TIME_MAX) with false
    by (symmetry; rewrite Z.gtb_ltb; apply Z.ltb_ge; lia).
  cbn [orb]. rewrite encodeTime_loop_digits by lia.
  now rewrite append_empty_r.
Qed.

Lemma encodeTime_out_of_range (timestamp : Z) (length : Z) :
  timestamp < 0 \/ timestamp > TIME_MAX ->
  encodeTime timestamp length = Throw (RangeError timestamp).
Proof.
  intros H; unfold encodeTime.
  destruct (Z.ltb_spec timestamp 0) as [L|L]; [reflexivity|].
  replace (timestamp >? TIME_MAX) with true
    by (symmetry; rewrite Z.gtb_ltb; apply Z.ltb_lt; lia).
  reflexivity.
Qed.

Lemma encodeRandom_loop_digits (bytes : list Z) (str : string) :
  Forall (fun b => 0 <= b) bytes ->
  encodeRandom_loop bytes str = str ++ random_digits bytes.
Proof.
  revert str; induction bytes as [|b bytes IH]; intros str H.
  - simpl; now rewrite append_empty_r.
  - inversion H as [|? ? Hb Hbs]; subst.
    cbn [encodeRandom_loop random_digits].
    rewrite Z.rem_mod_nonneg by lia.
    rewrite symbol_at by (apply Z.mod_pos_bound; lia).
    rewrite IH by assumption.
    now rewrite append_assoc.
Qed.

Lemma length_random_digits (bytes : list Z) :
  String.length (random_digits bytes) = List.length bytes.
Proof. induction bytes as [|b bytes IH]; simpl; [reflexivity | now rewrite IH]. Qed.

Lemma canonical_random_digits (bytes : list Z) :
  canonical (random_digits bytes) = true.
Proof.
  induction bytes as [|b bytes IH]; [reflexivity|].
  cbn [random_digits canonical]. rewrite IH, digit_char_symbol; [reflexivity|].
  apply Z.mod_pos_bound; lia.
Qed.

Lemma getRandomValues_bytes (n : nat) (w : World) :
  Forall (fun b => 0 <= b) (fst (getRandomValues n w))
  /\ List.length (fst (getRandomValues n w)) = n.
Proof.
  unfold getRandomValues; cbn [fst]; split.
  - apply Forall_forall; intros b Hb.
    apply in_map_iff in Hb; destruct Hb as (i & <- & _).
    apply Z.mod_pos_bound; lia.
  - now rewrite length_map, length_seq.
Qed.

(** [encodeRandom(n)] is a canonical string of [n] symbols. *)
Lemma encodeRandom_canonical (n : nat) (w : World) :
  String.length (fst (encodeRandom n w)) = n
  /\ canonical (fst (encodeRandom n w)) = true.
Proof.
  unfold encodeRandom.
  destruct (getRandomValues_bytes n w) as [Hpos Hlen].
  destruct (getRandomValues n w) as [bytes w']; cbn [fst] in *.
  rewrite encodeRandom_loop_digits by assumption. cbn [String.append].
  split; [now rewrite length_random_digits | apply canonical_random_digits].
Qed.

Lemma decodeChar_symbol (c : ascii) :
  is_symbol c = true -> decodeChar (String c "") = Ok (digit_value c).
Proof.
  intros H. destruct (symbol_digit c H) as (d & Hd & ->).
  now rewrite decodeChar_digit, digit_value_char.
Qed.

Lemma decodeTime_loop_canonical (r p q : string) (acc : Z) :
  canonical r = true ->
  decodeTime_loop (String.length r) (String.length p) (p ++ r ++ q) acc
  = Ok (acc * 32 ^ Z.of_nat (String.length r) + value_of r).
Proof.
  revert p acc; induction r as [|c r IH]; intros p acc H.
  - cbn [String.length decodeTime_loop value_of].
    change (32 ^ Z.of_nat 0) with 1. f_equal; lia.
  - cbn [canonical] in H; apply andb_true_iff in H; destruct H as [Hc Hr].
    cbn [String.length decodeTime_loop String.append].
    rewrite at_index_append_mid, decodeChar_symbol by assumption.
    replace (p ++ String c (r ++ q)) with ((p ++ String c "") ++ r ++ q)
      by (now rewrite append_assoc).
    replace (S (String.length p)) with (String.length (p ++ String c ""))
      by (rewrite length_append; simpl; lia).
    rewrite IH by assumption. cbn [value_of].
    rewrite Nat2Z.inj_succ, Z.pow_succ_r by lia. f_equal; ring.
Qed.

(** [decodeTime] reads the number its first ten symbols denote. *)
Lemma decodeTime_canonical (t r : string) :
  String.length t = TIME_LENGTH -> canonical t = true ->
  decodeTime (t ++ r) = Ok (value_of t).
Proof.
  intros Hl Hc. unfold decodeTime.
  rewrite <- Hl, substring_0_append.
  pose proof (decodeTime_loop_canonical t "" "" 0 Hc) as E.
  cbn [String.length String.append] in E.
  rewrite append_empty_r in E. rewrite E. f_equal; lia.
Qed.

End Codec.

(* ================================================================== *)
(** ** Encoding and decoding of timestamps *)

Section TimestampRoundTrip.

Lemma generate_in_range (t : Z) (w : World) :
  0 <= t <= TIME_MAX ->
  Ulid.generate (Some t) w
  = (Ok (digits TIME_LENGTH t ++ fst (encodeRandom RANDOM_LENGTH w)),
     snd (encodeRandom RANDOM_LENGTH w)).
Proof.
  intros H. unfold Ulid.generate, bind, ret, lift, read.
  rewrite encodeTime_in_range by assumption.
  rewrite Nat2Z.id.
  now destruct (encodeRandom RANDOM_LENGTH w) as [r w'].
Qed.

(** C5.  For every integer timestamp t with 0 <= t <= 2^48 - 1,
    [Ulid.generate(t)] returns an identifier whose [Ulid.timestamp] is t:
    decoding the first ten symbols undoes the encoding. *)
Theorem timestamp_generate (t : Z) (w : World) :
  0 <= t <= 2 ^ 48 - 1 ->
  exists id w',
    Ulid.generate (Some t) w = (Ok id, w') /\ Ulid.timestamp id = Ok t.
Proof.
  intros H.
  exists (digits TIME_LENGTH t ++ fst (encodeRandom RANDOM_LENGTH w)),
         (snd (encodeRandom RANDOM_LENGTH w)).
  split; [now apply generate_in_range|].
  unfold Ulid.timestamp.
  rewrite decodeTime_canonical
    by (apply length_digits || apply canonical_digits).
  rewrite value_of_digits, Z.mod_small; [reflexivity|].
  change (32 ^ Z.of_nat TIME_LENGTH) with (2 ^ 50). lia.
Qed.

Lemma timestamp_generate_witness :
  0 <= 1469918176385 <= 2 ^ 48 - 1
  /\ exists id w',
       Ulid.generate (Some 1469918176385) (steady_world 0 7) = (Ok id, w')
       /\ Ulid.timestamp id = Ok 1469918176385.
Proof.
  split; [lia | apply (timestamp_generate 1469918176385); lia].
Defined.

End TimestampRoundTrip.

(* ================================================================== *)
(** ** The range check of [encodeTime] *)

Section EncodeTimeRange.

Lemma get_digits (n i : nat) (v : Z) :
  (i < n)%nat ->
  String.get i (digits n v)
  = Some (digit_char (v / 32 ^ Z.of_nat (n - 1 - i) mod 32)).
Proof.
  revert i; induction n as [|n IH]; intros i Hi; [lia|].
  rewrite digits_head. destruct i as [|i]; cbn [String.get].
  - now replace (S n - 1 - 0)%nat with n by lia.
  - rewrite IH by lia. now replace (S n - 1 - S i)%nat with (n - 1 - i)%nat by lia.
Qed.

(** C8, as the code has it.  [encodeTime(v, n)] throws a RangeError
    exactly when v is negative or above TIME_MAX = 2^48 - 1, whatever the
    width n; for every other v it returns the n least significant base-32
    digits of v, most significant first: n symbols, the i-th being the
    symbol of (v / 32^(n-1-i)) mod 32, which denote v mod 32^n. *)
Theorem encodeTime_range (v : Z) (n : nat) :
  (encodeTime v (Z.of_nat n) = Throw (RangeError v)
   <-> v < 0 \/ v > 2 ^ 48 - 1)
  /\ (0 <= v <= 2 ^ 48 - 1 ->
      exists s,
        encodeTime v (Z.of_nat n) = Ok s
        /\ String.length s = n
        /\ (forall i, (i < n)%nat ->
              String.get i s
              = Some (digit_char (v / 32 ^ Z.of_nat (n - 1 - i) mod 32)))
        /\ value_of s = v mod 32 ^ Z.of_nat n).
Proof.
  split; [split|].
  - intros E.
    destruct (Z_lt_dec v 0) as [L|L]; [now left|].
    destruct (Z_gt_dec v (2 ^ 48 - 1)) as [G|G]; [now right|].
    rewrite encodeTime_in_range in E by (unfold TIME_MAX; lia).
    discriminate.
  - intros H. apply encodeTime_out_of_range. exact H.
  - intros H. exists (digits n v).
    rewrite encodeTime_in_range, Nat2Z.id by exact H.
    repeat split.
    + apply length_digits.
    + intros i Hi. now apply get_digits.
    + apply value_of_digits.
Qed.

Lemma encodeTime_range_witness :
  exists s,
    encodeTime 1469918176385 (Z.of_nat 10) = Ok s
    /\ String.length s = 10%nat
    /\ (forall i, (i < 10)%nat ->
          String.get i s
          = Some (digit_char
                    (1469918176385 / 32 ^ Z.of_nat (10 - 1 - i) mod 32)))
    /\ value_of s = 1469918176385 mod 32 ^ Z.of_nat 10.
Proof.
  apply (proj2 (encodeTime_range 1469918176385 10)). lia.
Defined.

(** C8, as it is stated, fails in both directions: a value too large for
    the width is encoded (truncated) when it is at most TIME_MAX, and a
    value that fits ten symbols is refused when it is above TIME_MAX. *)
Lemma encodeTime_width_counterexample :
  (32 > 32 ^ 1 - 1 /\ encodeTime 32 1 = Ok "0")
  /\ (0 <= 2 ^ 48 <= 32 ^ 10 - 1
      /\ encodeTime (2 ^ 48) 10 = Throw (RangeError (2 ^ 48))).
Proof.
  repeat split; try lia; vm_compute; congruence.
Qed.

End EncodeTimeRange.

(* ================================================================== *)
(** ** [Ulid.compare] *)

Section Compare.

(** [Ulid.compare] is the three-way comparison of the strings. *)
Lemma compare_by_cases (a b : string) :
  Ulid.compare a b =
    match String.compare a b with
    | Eq => 0
    | Lt => -1
    | Gt => 1
    end.
Proof.
  unfold Ulid.compare, str_eq, str_lt, String.ltb.
  destruct (String.eqb_spec a b) as [->|N].
  - now rewrite compare_refl.
  - destruct (String.compare a b) eqn:E; try reflexivity.
    apply String.compare_eq_iff in E. contradiction.
Qed.

Lemma string_compare_trans (a b c : string) :
  String.compare a b = Lt -> String.compare b c = Lt -> String.compare a c = Lt.
Proof.
  revert b c; induction a as [|x a IH]; intros [|y b] [|z c]; simpl;
    try discriminate; try reflexivity.
  unfold Ascii.compare.
  destruct (N.compare_spec (N_of_ascii x) (N_of_ascii y)) as [E1|L1|G1];
    destruct (N.compare_spec (N_of_ascii y) (N_of_ascii z)) as [E2|L2|G2];
    try discriminate; intros H1 H2.
  - rewrite E1, E2, N.compare_refl. now apply (IH b c).
  - rewrite E1. now apply N.compare_lt_iff in L2 as ->.
  - rewrite <- E2. now apply N.compare_lt_iff in L1 as ->.
  - assert (L : (N_of_ascii x < N_of_ascii z)%N) by lia.
    now apply N.compare_lt_iff in L as ->.
Qed.

(** A canonical ULID string is a time part of ten symbols followed by a
    random part of sixteen. *)
Lemma canonical_ulid_parts (a : string) :
  canonical_ulid a ->
  exists t r,
    a = t ++ r
    /\ String.length t = TIME_LENGTH /\ canonical t = true
    /\ String.length r = RANDOM_LENGTH /\ canonical r = true
    /\ random_part a = r
    /\ Ulid.timestamp a = Ok (value_of t).
Proof.
  intros [Hl Hc].
  destruct (split_at TIME_LENGTH a) as (t & r & -> & Ht);
    [rewrite Hl; unfold ULID_LENGTH; lia|].
  rewrite canonical_append in Hc; apply andb_true_iff in Hc.
  destruct Hc as [Hct Hcr].
  rewrite length_append, Ht in Hl.
  assert (Hr : String.length r = RANDOM_LENGTH)
    by (unfold ULID_LENGTH in Hl; lia).
  exists t, r; repeat split; try assumption.
  - unfold random_part. rewrite <- Ht, substring_skip_append.
    rewrite <- Hr. apply substring_0_length.
  - unfold Ulid.timestamp. now apply decodeTime_canonical.
Qed.

(** C6.  On canonical ULID strings [Ulid.compare] follows the encoded
    timestamp: a smaller timestamp compares -1, and with equal timestamps
    the comparison of the random portions decides; a string compares 0 with
    itself; and [compare] is a total order: antisymmetric, 0 only on equal
    strings, and transitive. *)
Theorem compare_timestamp_order (a b : string) :
  canonical_ulid a -> canonical_ulid b ->
  (exists ta tb,
      Ulid.timestamp a = Ok ta /\ Ulid.timestamp b = Ok tb
      /\ (ta < tb -> Ulid.compare a b = -1)
      /\ (ta = tb ->
          Ulid.compare a b = Ulid.compare (random_part a) (random_part b)))
  /\ Ulid.compare a a = 0
  /\ Ulid.compare a b = - Ulid.compare b a
  /\ (Ulid.compare a b = 0 -> a = b)
  /\ (forall c, Ulid.compare a b = -1 -> Ulid.compare b c = -1 ->
                Ulid.compare a c = -1).
Proof.
  intros Ha Hb.
  destruct (canonical_ulid_parts a Ha)
    as (ta & ra & Ea & Hta & Hcta & Hra & Hcra & Hrpa & Htsa).
  destruct (canonical_ulid_parts b Hb)
    as (tb & rb & Eb & Htb & Hctb & Hrb & Hcrb & Hrpb & Htsb).
  split; [|split; [|split; [|split]]].
  - exists (value_of ta), (value_of tb).
    split; [assumption|]. split; [assumption|].
    rewrite Hrpa, Hrpb, !compare_by_cases. subst a b.
    rewrite compare_append by congruence.
    rewrite (compare_canonical ta tb) by congruence.
    split; intros H.
    + now apply Z.compare_lt_iff in H as ->.
    + now apply Z.compare_eq_iff in H as ->.
  - rewrite compare_by_cases. now rewrite compare_refl.
  - rewrite !compare_by_cases, (String.compare_antisym b a).
    now destruct (String.compare a b).
  - rewrite compare_by_cases.
    destruct (String.compare a b) eqn:E; try discriminate.
    intros _. now apply String.compare_eq_iff.
  - intros c. rewrite !compare_by_cases.
    destruct (String.compare a b) eqn:E1; try discriminate.
    destruct (String.compare b c) eqn:E2; try discriminate.
    intros _ _. now rewrite (string_compare_trans a b c E1 E2).
Qed.

Lemma compare_timestamp_order_witness :
  canonical_ulid "01ARYZ6S410000000000000009"
  /\ canonical_ulid "01ARYZ6S42ZZZZZZZZZZZZZZZZ"
  /\ exists ta tb,
       Ulid.timestamp "01ARYZ6S410000000000000009" = Ok ta
       /\ Ulid.timestamp "01ARYZ6S42ZZZZZZZZZZZZZZZZ" = Ok tb
       /\ (ta < tb ->
           Ulid.compare "01ARYZ6S410000000000000009"
                        "01ARYZ6S42ZZZZZZZZZZZZZZZZ" = -1)
       /\ (ta = tb ->
           Ulid.compare "01ARYZ6S410000000000000009"
                        "01ARYZ6S42ZZZZZZZZZZZZZZZZ"
           = Ulid.compare (random_part "01ARYZ6S410000000000000009")
                          (random_part "01ARYZ6S42ZZZZZZZZZZZZZZZZ")).
Proof.
  split; [split; reflexivity|]. split; [split; reflexivity|].
  apply (proj1 (compare_timestamp_order "01ARYZ6S410000000000000009"
                  "01ARYZ6S42ZZZZZZZZZZZZZZZZ"
                  (conj eq_refl eq_refl) (conj eq_refl eq_refl))).
Defined.

End Compare.

(* ================================================================== *)
(** ** The monotonic sequencer *)

Section Sequencer.

Lemma set_nth_middle (n : nat) (l1 l2 : list string) (x y : string) :
  List.length l1 = n ->
  Ulid.set_nth n x (l1 ++ y :: l2) = (l1 ++ x :: l2)%list.
Proof.
  intros <-. induction l1 as [|a l1 IH]; simpl; [reflexivity | now rewrite IH].
Qed.

Lemma nth_middle_string (n : nat) (l1 l2 : list string) (y d : string) :
  List.length l1 = n ->
  nth n (l1 ++ y :: l2) d = y.
Proof.
  intros <-. induction l1 as [|a l1 IH]; simpl; [reflexivity | exact IH].
Qed.

(** The increment loop adds one to the counter, modulo 32^n: a digit below
    31 is replaced by its successor, a digit 31 becomes 0 and the carry
    moves left. *)
Lemma increment_loop_digits (n : nat) (v : Z) (suf : list string) :
  0 <= v ->
  concat_all (Ulid.increment_loop n (chars_of (digits n v) ++ suf))
  = digits n (v + 1) ++ concat_all suf.
Proof.
  revert v suf; induction n as [|n IH]; intros v suf Hv.
  - reflexivity.
  - cbn [digits Ulid.increment_loop].
    rewrite chars_of_append; cbn [chars_of]. rewrite <- app_assoc; cbn [app].
    assert (Hlen : List.length (chars_of (digits n (v / 32))) = n)
      by (now rewrite length_chars_of, length_digits).
    rewrite nth_middle_string, !set_nth_middle by exact Hlen.
    change (indexOf ENCODING (String (digit_char (v mod 32)) ""))
      with (digit_value (digit_char (v mod 32))).
    pose proof (Z.mod_pos_bound v 32 ltac:(lia)) as Hm.
    rewrite digit_value_char by lia.
    pose proof (Z.div_mod v 32 ltac:(lia)) as Hdm.
    destruct (Z.ltb_spec (v mod 32) 31) as [L|L].
    + rewrite symbol_at by lia.
      rewrite concat_all_app, concat_all_chars_of; cbn [concat_all String.append].
      assert (E1 : (v + 1) / 32 = v / 32)
        by (symmetry; apply (Z.div_unique _ _ _ (v mod 32 + 1)); lia).
      assert (E2 : (v + 1) mod 32 = v mod 32 + 1)
        by (symmetry; apply (Z.mod_unique _ _ (v / 32)); lia).
      rewrite E1, E2, append_assoc. reflexivity.
    + rewrite IH by (apply Z.div_pos; lia).
      assert (E1 : (v + 1) / 32 = v / 32 + 1)
        by (symmetry; apply (Z.div_unique _ _ _ 0); lia).
      assert (E2 : (v + 1) mod 32 = 0)
        by (symmetry; apply (Z.mod_unique _ _ (v / 32 + 1)); lia).
      rewrite E1, E2, append_assoc. reflexivity.
Qed.

(** The increment on a canonical random portion. *)
Lemma increment_canonical (r : string) :
  canonical r = true ->
  join (Ulid.increment_loop (List.length (chars_of r)) (chars_of r))
  = digits (String.length r) (value_of r + 1).
Proof.
  intros Hc. rewrite join_concat_all, length_chars_of.
  pose proof (increment_loop_digits (String.length r) (value_of r) []) as E.
  rewrite digits_value_of, app_nil_r in E by assumption.
  rewrite E by (apply value_of_range; assumption).
  apply append_empty_r.
Qed.

(** A call in the millisecond of the previous one. *)
Lemma next_same_ms (g : Ulid.Sequencer) (w : World) :
  let now := clock w (clock_reads w) in
  now = Ulid.lastTime g ->
  0 <= now <= TIME_MAX ->
  canonical (Ulid.lastRandom g) = true ->
  let r := digits (String.length (Ulid.lastRandom g))
                  (value_of (Ulid.lastRandom g) + 1) in
  Ulid.next g w
  = (Ok (digits TIME_LENGTH now ++ r), Ulid.mkSequencer now r, snd (Date_now w)).
Proof.
  intros now E Hr Hc r. unfold Ulid.next, Date_now.
  fold now. rewrite E, Z.eqb_refl, <- E.
  rewrite increment_canonical by assumption. fold r.
  rewrite encodeTime_in_range, Nat2Z.id by assumption.
  reflexivity.
Qed.

(** A call in another millisecond than the previous one. *)
Lemma next_other_ms (g : Ulid.Sequencer) (w : World) :
  let now := clock w (clock_reads w) in
  now <> Ulid.lastTime g ->
  let r := fst (encodeRandom RANDOM_LENGTH (snd (Date_now w))) in
  let w' := snd (encodeRandom RANDOM_LENGTH (snd (Date_now w))) in
  Ulid.next g w
  = (match encodeTime now (Z.of_nat TIME_LENGTH) with
     | Ok t => Ok (t ++ r)
     | Throw e => Throw e
     end, Ulid.mkSequencer now r, w').
Proof.
  intros now N r w'. unfold Ulid.next.
  change (Date_now w) with (now, snd (Date_now w)).
  cbv beta iota.
  replace (now =? Ulid.lastTime g) with false
    by (symmetry; now apply Z.eqb_neq).
  subst r w'. destruct (encodeRandom RANDOM_LENGTH (snd (Date_now w))) as [r w'].
  cbn [fst snd Ulid.lastRandom].
  now destruct (encodeTime now (Z.of_nat TIME_LENGTH)).
Qed.

(** What a call that returns an identifier leaves behind. *)
Lemma next_returns (g g' : Ulid.Sequencer) (w w' : World) (id : string) :
  Ulid.next g w = (Ok id, g', w') ->
  let now := clock w (clock_reads w) in
  0 <= now <= TIME_MAX
  /\ Ulid.lastTime g' = now
  /\ id = digits TIME_LENGTH now ++ Ulid.lastRandom g'.
Proof.
  intros H now.
  assert (Hr : 0 <= now <= TIME_MAX).
  { destruct (Z_lt_dec now 0) as [L|L];
      [|destruct (Z_gt_dec now TIME_MAX) as [G|G]; [|lia]];
      exfalso; revert H; unfold Ulid.next;
      change (Date_now w) with (now, snd (Date_now w)); cbv beta iota;
      rewrite encodeTime_out_of_range by lia;
      destruct (now =? Ulid.lastTime g);
      try destruct (encodeRandom RANDOM_LENGTH (snd (Date_now w)));
      discriminate. }
  split; [exact Hr|].
  revert H; unfold Ulid.next.
  change (Date_now w) with (now, snd (Date_now w)); cbv beta iota.
  rewrite encodeTime_in_range, Nat2Z.id by exact Hr.
  destruct (Z.eqb_spec now (Ulid.lastTime g)) as [E|N].
  - intros H; injection H as <- <- <-. now split.
  - destruct (encodeRandom RANDOM_LENGTH (snd (Date_now w))) as [r w2].
    intros H; injection H as <- <- <-. now split.
Qed.

End Sequencer.

(* ================================================================== *)
(** ** Calls within one millisecond *)

Section SameMillisecond.

Lemma increasing_map_seq (f : nat -> string) (a n : nat) :
  (forall i j, (a <= i)%nat -> (i < j)%nat -> (j < a + n)%nat ->
               str_lt (f i) (f j) = true) ->
  increasing (map f (seq a n)).
Proof.
  unfold increasing. revert a; induction n as [|n IH]; intros a H.
  - constructor.
  - cbn [seq map]. constructor.
    + apply IH. intros i j Hi Hij Hj. apply H; lia.
    + apply Forall_forall. intros x Hx.
      apply in_map_iff in Hx; destruct Hx as (j & <- & Hj).
      apply in_seq in Hj. apply H; lia.
Qed.

Lemma str_lt_same_time (t : string) (u v : Z) :
  0 <= u -> u < v -> v < 32 ^ Z.of_nat RANDOM_LENGTH ->
  str_lt (t ++ digits RANDOM_LENGTH u) (t ++ digits RANDOM_LENGTH v) = true.
Proof.
  intros Hu Huv Hv. unfold str_lt, String.ltb.
  rewrite compare_append, compare_refl by reflexivity.
  rewrite compare_digits by lia.
  now apply Z.compare_lt_iff in Huv as ->.
Qed.

(** [n] calls in the millisecond [t] of the previous call: the counter
    goes up by one at every call. *)
Lemma calls_same_ms (n : nat) (g : Ulid.Sequencer) (w : World) (t v : Z) :
  Ulid.lastTime g = t ->
  Ulid.lastRandom g = digits RANDOM_LENGTH v ->
  0 <= v ->
  0 <= t <= TIME_MAX ->
  (forall i, (i < n)%nat -> clock w (clock_reads w + i) = t) ->
  fst (fst (Ulid.calls n g w))
  = map (fun j => Ok (digits TIME_LENGTH t
                      ++ digits RANDOM_LENGTH (v + 1 + Z.of_nat j)))
        (seq 0 n).
Proof.
  revert g w v; induction n as [|n IH]; intros g w v Ht Hr Hv Hrange Hclock;
    [reflexivity|].
  cbn [Ulid.calls].
  assert (Hnow : clock w (clock_reads w) = t)
    by (rewrite <- (Hclock 0%nat) by lia; f_equal; lia).
  pose proof (next_same_ms g w) as E. cbv zeta in E.
  rewrite Hnow, Hr, length_digits, value_of_digits in E.
  specialize (E (eq_sym Ht) Hrange (canonical_digits _ _)).
  assert (Ed : digits RANDOM_LENGTH (v mod 32 ^ Z.of_nat RANDOM_LENGTH + 1)
               = digits RANDOM_LENGTH (v + 1)).
  { rewrite (Z.div_mod v (32 ^ Z.of_nat RANDOM_LENGTH)) at 2
      by (apply Z.pow_nonzero; lia).
    rewrite <- Z.add_assoc, (Z.mul_comm (32 ^ _)).
    now rewrite digits_add_high. }
  rewrite Ed in E. rewrite E.
  specialize (IH (Ulid.mkSequencer t (digits RANDOM_LENGTH (v + 1)))
                 (snd (Date_now w)) (v + 1) eq_refl eq_refl
                 ltac:(lia) Hrange).
  destruct (Ulid.calls n _ (snd (Date_now w))) as [[rs g''] w''].
  cbn [fst] in *. rewrite IH.
  - cbn [seq map]. f_equal; [now rewrite Z.add_0_r|].
    rewrite <- seq_shift, map_map. apply map_ext. intros j.
    do 3 f_equal. lia.
  - intros i Hi. cbn [Date_now snd clock clock_reads].
    rewrite <- (Hclock (S i)) by lia. f_equal; lia.
Qed.

(** C3, as the code has it.  N successive calls of one generator whose
    clock reads all return the same millisecond t within 0..2^48-1, t not
    being the time the generator has stored (so the first of the calls
    draws the random portion r), return N identifiers of 26 symbols in
    strictly increasing order, provided the counter does not overflow:
    r, read as a base-32 number, plus N is at most 32^16. *)
Theorem monotonic_same_ms (g : Ulid.Sequencer) (w : World) (N : nat) (t : Z) :
  0 <= t <= 2 ^ 48 - 1 ->
  Ulid.lastTime g <> t ->
  (forall i, (i < N)%nat -> clock w (clock_reads w + i) = t) ->
  value_of (fst (encodeRandom RANDOM_LENGTH (snd (Date_now w)))) + Z.of_nat N
    <= 32 ^ 16 ->
  exists ids,
    fst (fst (Ulid.calls N g w)) = map Ok ids
    /\ List.length ids = N
    /\ Forall (fun id => String.length id = ULID_LENGTH) ids
    /\ increasing ids.
Proof.
  intros Hrange Hg Hclock Hroom.
  set (r0 := fst (encodeRandom RANDOM_LENGTH (snd (Date_now w)))) in *.
  set (v0 := value_of r0) in *.
  destruct (encodeRandom_canonical RANDOM_LENGTH (snd (Date_now w)))
    as [Hlen Hcan]. fold r0 in Hlen, Hcan.
  pose proof (value_of_range r0 Hcan) as Hv0. fold v0 in Hv0.
  exists (map (fun j => digits TIME_LENGTH t
                        ++ digits RANDOM_LENGTH (v0 + Z.of_nat j))
              (seq 0 N)).
  split; [|split; [|split]].
  - destruct N as [|n]; [reflexivity|].
    cbn [Ulid.calls].
    assert (Hnow : clock w (clock_reads w) = t)
      by (rewrite <- (Hclock 0%nat) by lia; f_equal; lia).
    pose proof (next_other_ms g w) as E. cbv zeta in E.
    rewrite Hnow in E. specialize (E (not_eq_sym Hg)).
    rewrite encodeTime_in_range, Nat2Z.id in E by exact Hrange.
    fold r0 in E. rewrite E.
    pose proof (calls_same_ms n
                  (Ulid.mkSequencer t r0)
                  (snd (encodeRandom RANDOM_LENGTH (snd (Date_now w))))
                  t v0 eq_refl) as C.
    cbn [Ulid.lastRandom] in C.
    assert (Er0 : r0 = digits RANDOM_LENGTH v0)
      by (unfold v0; rewrite <- Hlen at 1; symmetry;
          now apply digits_value_of).
    specialize (C Er0 ltac:(lia) Hrange).
    destruct (Ulid.calls n _ _) as [[rs g''] w''].
    cbn [fst] in *. rewrite C.
    + cbn [seq map]. rewrite Z.add_0_r, <- Er0. f_equal.
      rewrite <- seq_shift, !map_map. apply map_ext. intros j.
      do 3 f_equal. lia.
    + intros i Hi. cbn [encodeRandom getRandomValues Date_now snd clock clock_reads].
      rewrite <- (Hclock (S i)) by lia. f_equal; lia.
  - now rewrite length_map, length_seq.
  - apply Forall_forall. intros id Hid.
    apply in_map_iff in Hid; destruct Hid as (j & <- & _).
    now rewrite length_append, !length_digits.
  - apply increasing_map_seq. intros i j Hi Hij Hj.
    apply str_lt_same_time; change (Z.of_nat RANDOM_LENGTH) with 16; lia.
Qed.

Lemma monotonic_same_ms_witness :
  exists ids,
    fst (fst (Ulid.calls 3 Ulid.monotonic (steady_world 1469918176385 7)))
    = map Ok ids
    /\ List.length ids = 3%nat
    /\ Forall (fun id => String.length id = ULID_LENGTH) ids
    /\ increasing ids.
Proof.
  apply (monotonic_same_ms Ulid.monotonic (steady_world 1469918176385 7) 3
           1469918176385).
  - lia.
  - discriminate.
  - reflexivity.
  - vm_compute. discriminate.
Defined.

(** C3, as it is stated, fails when the counter overflows: with the clock
    at 1 and a random source whose bytes are all 31, the first call draws
    the largest random portion and the second call wraps it to the
    smallest. *)
Lemma monotonic_same_ms_counterexample :
  let w := steady_world 1 31 in
  (forall i, clock w i = 1)
  /\ fst (fst (Ulid.calls 2 Ulid.monotonic w))
     = [Ok "0000000001ZZZZZZZZZZZZZZZZ"; Ok "00000000010000000000000000"]
  /\ ~ increasing ["0000000001ZZZZZZZZZZZZZZZZ"; "00000000010000000000000000"].
Proof.
  split; [reflexivity|]. split; [vm_compute; reflexivity|].
  intros H. inversion H as [|? ? _ F]; subst.
  inversion F as [|? ? L _]; subst.
  vm_compute in L. discriminate.
Qed.

(** Left out of C3: at clock value 0 a new generator takes its first call
    for a call in the millisecond of the previous one (the stored time starts
    at 0) and increments the empty random portion: it returns the ten time
    symbols alone, again and again. *)
Lemma monotonic_at_epoch (b : Z) :
  fst (fst (Ulid.calls 2 Ulid.monotonic (steady_world 0 b)))
  = [Ok "0000000000"; Ok "0000000000"].
Proof. reflexivity. Qed.

End SameMillisecond.

(* ================================================================== *)
(** ** Counter overflow and clock regression *)

Section Overflow.

(** C4, evaluated on the code.  A call in the millisecond t of the
    previous call, with the random portion at its maximum, throws nothing:
    it returns an identifier whose random portion has wrapped around to
    sixteen zeros, smaller than the previous identifier, and stores the
    wrapped portion. *)
Theorem overflow_wraps (t : Z) (w : World) :
  0 <= t <= 2 ^ 48 - 1 ->
  clock w (clock_reads w) = t ->
  Ulid.next (Ulid.mkSequencer t "ZZZZZZZZZZZZZZZZ") w
  = (Ok (digits TIME_LENGTH t ++ "0000000000000000"),
     Ulid.mkSequencer t "0000000000000000",
     snd (Date_now w))
  /\ str_lt (digits TIME_LENGTH t ++ "0000000000000000")
            (digits TIME_LENGTH t ++ "ZZZZZZZZZZZZZZZZ") = true.
Proof.
  intros Hrange Hnow. split.
  - pose proof (next_same_ms (Ulid.mkSequencer t "ZZZZZZZZZZZZZZZZ") w) as E.
    cbv zeta in E. rewrite Hnow in E.
    apply (E eq_refl Hrange eq_refl).
  - apply (str_lt_same_time (digits TIME_LENGTH t) 0 (32 ^ 16 - 1));
      change (Z.of_nat RANDOM_LENGTH) with 16; lia.
Qed.

Lemma overflow_wraps_witness :
  0 <= 1 <= 2 ^ 48 - 1
  /\ Ulid.next (Ulid.mkSequencer 1 "ZZZZZZZZZZZZZZZZ") (steady_world 1 31)
     = (Ok (digits TIME_LENGTH 1 ++ "0000000000000000"),
        Ulid.mkSequencer 1 "0000000000000000",
        snd (Date_now (steady_world 1 31))).
Proof.
  split; [lia|].
  apply (proj1 (overflow_wraps 1 (steady_world 1 31) ltac:(lia) eq_refl)).
Defined.

End Overflow.

Section ClockRegression.

(** C10, as the code has it.  After a call that returned an identifier
    [prev], a call whose clock read [now] is below the stored [lastTime]
    takes the reset branch: it stores [now] and a fresh random portion.
    When [now] is not negative it throws nothing and returns an identifier
    smaller than [prev]; when [now] is negative the range check of the
    encoder throws, after the state has been reset.  The call does the same
    from any other state whose stored time differs from [now]: nothing
    records the regression. *)
Theorem clock_regression
        (g g1 : Ulid.Sequencer) (w w1 : World) (prev : string) :
  Ulid.next g w = (Ok prev, g1, w1) ->
  let now := clock w1 (clock_reads w1) in
  now < Ulid.lastTime g1 ->
  let fresh := fst (encodeRandom RANDOM_LENGTH (snd (Date_now w1))) in
  let w2 := snd (encodeRandom RANDOM_LENGTH (snd (Date_now w1))) in
  let id := digits TIME_LENGTH now ++ fresh in
  Ulid.next g1 w1
  = (if 0 <=? now then Ok id else Throw (RangeError now),
     Ulid.mkSequencer now fresh, w2)
  /\ (0 <= now -> str_lt id prev = true)
  /\ (forall g', Ulid.lastTime g' <> now -> Ulid.next g' w1 = Ulid.next g1 w1).
Proof.
  intros Hprev now Hlt fresh w2 id.
  destruct (next_returns g g1 w w1 prev Hprev) as (Hr0 & Hlast & Eprev).
  assert (Enext : forall g', Ulid.lastTime g' <> now ->
            Ulid.next g' w1
            = (if 0 <=? now then Ok id else Throw (RangeError now),
               Ulid.mkSequencer now fresh, w2)).
  { intros g' N. pose proof (next_other_ms g' w1) as E. cbv zeta in E.
    fold now in E. specialize (E (not_eq_sym N)). rewrite E.
    destruct (Z.leb_spec 0 now) as [P|P].
    - now rewrite encodeTime_in_range, Nat2Z.id by lia.
    - now rewrite encodeTime_out_of_range by lia. }
  split; [apply Enext; lia|]. split.
  - intros Hnow. unfold id. rewrite Eprev. unfold str_lt, String.ltb.
    rewrite compare_append by (now rewrite !length_digits).
    rewrite compare_digits
      by (change (32 ^ Z.of_nat TIME_LENGTH) with (2 ^ 50);
          unfold TIME_MAX in *; lia).
    rewrite <- Hlast.
    now apply Z.compare_lt_iff in Hlt as ->.
  - intros g' N. rewrite (Enext g' N). symmetry. apply Enext. lia.
Qed.

Lemma clock_regression_witness :
  Ulid.next Ulid.monotonic (regressing_world 3)
  = (Ok "00000000050123456789ABCDEF",
     Ulid.mkSequencer 5 "0123456789ABCDEF",
     mkWorld (clock (regressing_world 3)) 1 (entropy (regressing_world 3)) 16)
  /\ Ulid.next (Ulid.mkSequencer 5 "0123456789ABCDEF")
               (mkWorld (clock (regressing_world 3)) 1
                        (entropy (regressing_world 3)) 16)
     = (Ok "0000000003GHJKMNPQRSTVWXYZ",
        Ulid.mkSequencer 3 "GHJKMNPQRSTVWXYZ",
        mkWorld (clock (regressing_world 3)) 2 (entropy (regressing_world 3)) 32)
  /\ str_lt "0000000003GHJKMNPQRSTVWXYZ" "00000000050123456789ABCDEF" = true.
Proof.
  split; [reflexivity|].
  pose proof (clock_regression Ulid.monotonic
                (Ulid.mkSequencer 5 "0123456789ABCDEF")
                (regressing_world 3)
                (mkWorld (clock (regressing_world 3)) 1
                         (entropy (regressing_world 3)) 16)
                "00000000050123456789ABCDEF" eq_refl eq_refl) as H.
  split; [exact (proj1 H) | apply (proj1 (proj2 H)); discriminate].
Defined.

(** C10, as it is stated, fails on a negative clock read: the clock reads 5,
    then -1; the second call takes the reset branch and the encoder throws. *)
Lemma clock_regression_counterexample :
  Ulid.next Ulid.monotonic (regressing_world (-1))
  = (Ok "00000000050123456789ABCDEF",
     Ulid.mkSequencer 5 "0123456789ABCDEF",
     mkWorld (clock (regressing_world (-1))) 1
             (entropy (regressing_world (-1))) 16)
  /\ -1 < Ulid.lastTime (Ulid.mkSequencer 5 "0123456789ABCDEF")
  /\ Ulid.next (Ulid.mkSequencer 5 "0123456789ABCDEF")
               (mkWorld (clock (regressing_world (-1))) 1
                        (entropy (regressing_world (-1))) 16)
     = (Throw (RangeError (-1)),
        Ulid.mkSequencer (-1) "GHJKMNPQRSTVWXYZ",
        mkWorld (clock (regressing_world (-1))) 2
                (entropy (regressing_world (-1))) 32).
Proof.
  split; [reflexivity|]. split; [reflexivity|]. reflexivity.
Qed.

End ClockRegression.

(* ================================================================== *)
(** ** The matcher on the patterns of the source *)

Section Matcher.

Variable ic : bool.

Lemma all_chars_ext (P Q : ascii -> bool) (s : string) :
  (forall c, P c = Q c) -> all_chars P s = all_chars Q s.
Proof.
  intros H; induction s as [|c s IH]; simpl; [reflexivity | now rewrite H, IH].
Qed.

Lemma all_chars_append (P : ascii -> bool) (a b : string) :
  all_chars P (a ++ b) = all_chars P a && all_chars P b.
Proof.
  induction a as [|c a IH]; simpl; [reflexivity | now rewrite IH, andb_assoc].
Qed.

(** Up to [n] characters of a class, then [k]. *)
Lemma optional_cls (R : list (ascii * ascii)) (k : nat -> string -> bool)
      (n i : nat) (s : string) :
  RegExp.optional (RegExp.match_term ic (RegExp.Cls R)) k n i s = true
  <-> exists p rest,
        s = p ++ rest
        /\ all_chars (RegExp.class_mem ic R) p = true
        /\ (String.length p <= n)%nat
        /\ k (i + String.length p)%nat rest = true.
Proof.
  revert i s; induction n as [|n IH]; intros i s; cbn [RegExp.optional].
  - split.
    + intros H. exists "", s. cbn. rewrite Nat.add_0_r. auto.
    + intros (p & rest & -> & _ & Hl & Hk).
      destruct p; [|simpl in Hl; lia].
      cbn in Hk. now rewrite Nat.add_0_r in Hk.
  - rewrite orb_true_iff. split.
    + intros [H|H].
      * destruct s as [|a s]; cbn in H; [discriminate|].
        apply andb_true_iff in H; destruct H as [Ha H].
        apply IH in H. destruct H as (p & rest & -> & Hp & Hl & Hk).
        exists (String a p), rest. cbn. rewrite Ha, Hp.
        rewrite Nat.add_succ_r. repeat split; auto; lia.
      * exists "", s. cbn. rewrite Nat.add_0_r. repeat split; auto; lia.
    + intros (p & rest & -> & Hp & Hl & Hk).
      destruct p as [|a p].
      * right. cbn in Hk. now rewrite Nat.add_0_r in Hk.
      * left. cbn in Hp, Hl, Hk |- *.
        apply andb_true_iff in Hp; destruct Hp as [Ha Hp].
        rewrite Ha. cbn. apply IH. exists p, rest.
        rewrite Nat.add_succ_r in Hk. repeat split; auto; lia.
Qed.

(** Between [lo] and [lo + extra] characters of a class, then [k]. *)
Lemma required_cls (R : list (ascii * ascii)) (k : nat -> string -> bool)
      (extra lo i : nat) (s : string) :
  RegExp.required (RegExp.match_term ic (RegExp.Cls R)) k extra lo i s = true
  <-> exists p rest,
        s = p ++ rest
        /\ all_chars (RegExp.class_mem ic R) p = true
        /\ (lo <= String.length p <= lo + extra)%nat
        /\ k (i + String.length p)%nat rest = true.
Proof.
  revert i s; induction lo as [|lo IH]; intros i s; cbn [RegExp.required].
  - rewrite optional_cls. split;
      intros (p & rest & E & Hp & Hl & Hk); exists p, rest;
      repeat split; auto; lia.
  - split.
    + intros H. destruct s as [|a s]; cbn in H; [discriminate|].
      apply andb_true_iff in H; destruct H as [Ha H].
      apply IH in H. destruct H as (p & rest & -> & Hp & Hl & Hk).
      exists (String a p), rest. cbn. rewrite Ha, Hp.
      rewrite Nat.add_succ_r. repeat split; auto; lia.
    + intros (p & rest & -> & Hp & Hl & Hk).
      destruct p as [|a p]; [simpl in Hl; lia|].
      cbn in Hp, Hl, Hk |- *.
      apply andb_true_iff in Hp; destruct Hp as [Ha Hp].
      rewrite Ha. cbn. apply IH. exists p, rest.
      rewrite Nat.add_succ_r in Hk. repeat split; auto; lia.
Qed.

Lemma match_seq_quant (R : list (ascii * ascii)) (lo hi : nat)
      (tms : list RegExp.term) (k : nat -> string -> bool) (i : nat) (s : string) :
  (lo <= hi)%nat ->
  RegExp.match_seq ic (RegExp.Quant lo hi (RegExp.Cls R) :: tms) i s k = true
  <-> exists p rest,
        s = p ++ rest
        /\ all_chars (RegExp.class_mem ic R) p = true
        /\ (lo <= String.length p <= hi)%nat
        /\ RegExp.match_seq ic tms (i + String.length p)%nat rest k = true.
Proof.
  intros Hle.
  change (RegExp.match_seq ic (RegExp.Quant lo hi (RegExp.Cls R) :: tms) i s k)
    with (RegExp.required (RegExp.match_term ic (RegExp.Cls R))
            (fun i' s' => RegExp.match_seq ic tms i' s' k) (hi - lo) lo i s).
  rewrite required_cls. split;
    intros (p & rest & E & Hp & Hl & Hk); exists p, rest;
    repeat split; auto; lia.
Qed.

Lemma match_seq_cls (R : list (ascii * ascii))
      (tms : list RegExp.term) (k : nat -> string -> bool) (i : nat) (s : string) :
  RegExp.match_seq ic (RegExp.Cls R :: tms) i s k = true
  <-> exists c rest,
        s = String c rest
        /\ RegExp.class_mem ic R c = true
        /\ RegExp.match_seq ic tms (S i) rest k = true.
Proof.
  cbn [RegExp.match_seq RegExp.match_term]. split.
  - destruct s as [|c s]; [discriminate|].
    intros H; apply andb_true_iff in H; destruct H as [Hc H].
    exists c, s; auto.
  - intros (c & rest & -> & Hc & H). now rewrite Hc, H.
Qed.

Lemma match_seq_chr (x : ascii)
      (tms : list RegExp.term) (k : nat -> string -> bool) (i : nat) (s : string) :
  RegExp.match_seq ic (RegExp.Chr x :: tms) i s k = true
  <-> exists c rest,
        s = String c rest
        /\ RegExp.canonicalize ic x = RegExp.canonicalize ic c
        /\ RegExp.match_seq ic tms (S i) rest k = true.
Proof.
  cbn [RegExp.match_seq RegExp.match_term]. split.
  - destruct s as [|c s]; [discriminate|].
    intros H; apply andb_true_iff in H; destruct H as [Hc H].
    apply Ascii.eqb_eq in Hc. exists c, s; auto.
  - intros (c & rest & -> & Hc & H).
    apply Ascii.eqb_eq in Hc. now rewrite Hc, H.
Qed.

Lemma match_seq_eol (k : nat -> string -> bool) (i : nat) (s : string) :
  RegExp.match_seq ic [RegExp.Eol] i s k = true <-> s = "" /\ k i "" = true.
Proof.
  cbn [RegExp.match_seq RegExp.match_term]. split.
  - destruct s; [auto | discriminate].
  - now intros [-> H].
Qed.

(** A name: one character of a class, then at most [hi] of another. *)
Lemma match_seq_name (A B : list (ascii * ascii)) (hi : nat)
      (tms : list RegExp.term) (k : nat -> string -> bool) (i : nat) (s : string) :
  RegExp.match_seq ic
    (RegExp.Cls A :: RegExp.Quant 0 hi (RegExp.Cls B) :: tms) i s k = true
  <-> exists a rest,
        s = a ++ rest
        /\ name_shape (RegExp.class_mem ic A) (RegExp.class_mem ic B) hi a = true
        /\ RegExp.match_seq ic tms (i + String.length a)%nat rest k = true.
Proof.
  rewrite match_seq_cls. split.
  - intros (c & s1 & -> & Hc & H).
    apply match_seq_quant in H; [|lia].
    destruct H as (p & rest & -> & Hp & Hl & H).
    exists (String c p), rest. cbn. rewrite Hc, Hp.
    replace (String.length p <=? hi)%nat with true
      by (symmetry; apply Nat.leb_le; lia).
    rewrite Nat.add_succ_r. auto.
  - intros (a & rest & -> & Ha & H).
    destruct a as [|c p]; [discriminate|]. cbn in Ha.
    apply andb_true_iff in Ha; destruct Ha as [Hc Ha].
    apply andb_true_iff in Ha; destruct Ha as [Hp Hl].
    apply Nat.leb_le in Hl.
    exists c, (p ++ rest). repeat split; auto.
    apply match_seq_quant; [lia|]. exists p, rest.
    cbn in H. rewrite Nat.add_succ_r in H. repeat split; auto; lia.
Qed.

End Matcher.

(* ================================================================== *)
(** ** The languages of the patterns *)

Section Patterns.

Ltac each_char c := destruct c as [[] [] [] [] [] [] [] []]; vm_compute; reflexivity.

Lemma cls_lower (c : ascii) : RegExp.class_mem false [lower] c = is_lower c.
Proof. each_char c. Qed.

Lemma cls_app (c : ascii) :
  RegExp.class_mem false [lower; digit] c = is_lower c || is_digit c.
Proof. each_char c. Qed.

Lemma cls_entity (c : ascii) :
  RegExp.class_mem false [lower; digit; hyphen] c
  = is_lower c || is_digit c || is_hyphen c.
Proof. each_char c. Qed.

(** With the [i] flag a class of lower-case letters holds the upper-case
    letters as well. *)
Lemma cls_lower_i (c : ascii) : RegExp.class_mem true [lower] c = is_letter c.
Proof. each_char c. Qed.

Lemma cls_app_i (c : ascii) :
  RegExp.class_mem true [lower; digit] c = is_letter c || is_digit c.
Proof. each_char c. Qed.

Lemma cls_entity_i (c : ascii) :
  RegExp.class_mem true [lower; digit; hyphen] c
  = is_letter c || is_digit c || is_hyphen c.
Proof. each_char c. Qed.

Lemma cls_ulid_i (c : ascii) :
  RegExp.class_mem true
    [("0", "9"); ("A", "H"); ("J", "J"); ("K", "K"); ("M", "M");
     ("N", "N"); ("P", "T"); ("V", "Z")]%char c
  = is_symbol (upper_char c).
Proof. each_char c. Qed.

Lemma colon_i (c : ascii) :
  Ascii.eqb (RegExp.canonicalize true ":") (RegExp.canonicalize true c)
  = Ascii.eqb c ":".
Proof. each_char c. Qed.

Lemma name_shape_ext (f f' r r' : ascii -> bool) (hi : nat) (s : string) :
  (forall c, f c = f' c) -> (forall c, r c = r' c) ->
  name_shape f r hi s = name_shape f' r' hi s.
Proof.
  intros Hf Hr. destruct s as [|c p]; [reflexivity|]. cbn.
  now rewrite Hf, (all_chars_ext r r' p Hr).
Qed.

(** A pattern that begins with [^] matches at the start only. *)
Lemma search_bol (re : RegExp.t) (tms : list RegExp.term) :
  RegExp.source re = RegExp.Bol :: tms ->
  forall s i, RegExp.search re (S i) s = false.
Proof.
  intros E. induction s as [|c s IH]; intros i; cbn [RegExp.search];
    rewrite E; cbn [RegExp.match_seq RegExp.match_term Nat.eqb andb orb];
    [reflexivity | apply IH].
Qed.

Lemma test_anchored (re : RegExp.t) (tms : list RegExp.term) (s : string) :
  RegExp.source re = RegExp.Bol :: tms ->
  RegExp.test re s
  = RegExp.match_seq (RegExp.ignoreCase re) tms 0 s (fun _ _ => true).
Proof.
  intros E. unfold RegExp.test.
  destruct s as [|c s]; cbn [RegExp.search]; rewrite E;
    cbn [RegExp.match_seq RegExp.match_term Nat.eqb andb].
  - apply orb_false_r.
  - rewrite (search_bol re tms E). apply orb_false_r.
Qed.

(** A name pattern between [^] and [$]. *)
Lemma test_name (ic : bool) (A B : list (ascii * ascii)) (hi : nat) (s : string) :
  RegExp.test
    (RegExp.mk ([RegExp.Bol]
                  ++ [RegExp.Cls A; RegExp.Quant 0 hi (RegExp.Cls B)]
                  ++ [RegExp.Eol]) ic) s
  = name_shape (RegExp.class_mem ic A) (RegExp.class_mem ic B) hi s.
Proof.
  rewrite (test_anchored _ [RegExp.Cls A; RegExp.Quant 0 hi (RegExp.Cls B);
                            RegExp.Eol]) by reflexivity.
  cbn [RegExp.ignoreCase].
  apply Bool.eq_iff_eq_true. rewrite match_seq_name. split.
  - intros (a & rest & -> & Ha & H).
    apply match_seq_eol in H. destruct H as [-> _].
    now rewrite append_empty_r.
  - intros H. exists s, "". rewrite append_empty_r.
    repeat split; auto.
Qed.

(** [APP_PATTERN] accepts the app names. *)
Lemma test_APP_PATTERN (s : string) : RegExp.test APP_PATTERN s = app_name s.
Proof.
  unfold APP_PATTERN, app_terms. rewrite test_name.
  apply name_shape_ext; [apply cls_lower | apply cls_app].
Qed.

(** [ENTITY_PATTERN] accepts the entity names. *)
Lemma test_ENTITY_PATTERN (s : string) :
  RegExp.test ENTITY_PATTERN s = entity_name s.
Proof.
  unfold ENTITY_PATTERN, entity_terms. rewrite test_name.
  apply name_shape_ext; [apply cls_lower | apply cls_entity].
Qed.

(** [ULID_PATTERN] accepts 26 symbols in either case. *)
Lemma isValid_ulid_text (s : string) : Ulid.isValid s = ulid_text s.
Proof.
  unfold Ulid.isValid, ULID_PATTERN.
  erewrite test_anchored by reflexivity. cbn [RegExp.ignoreCase].
  apply Bool.eq_iff_eq_true. rewrite match_seq_quant by lia.
  unfold ulid_text. rewrite andb_true_iff, Nat.eqb_eq. split.
  - intros (p & rest & -> & Hp & Hl & H).
    apply match_seq_eol in H. destruct H as [-> _].
    rewrite append_empty_r. split; [lia|].
    now rewrite <- (all_chars_ext _ _ p cls_ulid_i).
  - intros [Hl Hp]. exists s, "". rewrite append_empty_r.
    repeat split; try lia.
    now rewrite (all_chars_ext _ _ s cls_ulid_i).
Qed.

(** [URN_PATTERN] accepts app ':' entity ':' ulid with app and entity in
    either case: the [i] flag covers the whole pattern. *)
Lemma isValid_urn_shape (s : string) :
  Urn.isValid s = true <-> urn_grammar_i s.
Proof.
  unfold Urn.isValid, URN_PATTERN, app_terms, entity_terms.
  erewrite test_anchored by reflexivity.
  cbn [RegExp.ignoreCase app RegExp.slice_1_m1 RegExp.source ULID_PATTERN
       tl removelast].
  rewrite match_seq_name. split.
  - intros (a & s1 & -> & Ha & H).
    apply match_seq_chr in H. destruct H as (x & s2 & -> & Hx & H).
    apply match_seq_name in H. destruct H as (e & s3 & -> & He & H).
    apply match_seq_chr in H. destruct H as (y & s4 & -> & Hy & H).
    apply match_seq_quant in H; [|lia].
    destruct H as (u & s5 & -> & Hu & Hl & H).
    apply match_seq_eol in H. destruct H as [-> _].
    apply Ascii.eqb_eq in Hx, Hy. rewrite colon_i in Hx, Hy.
    apply Ascii.eqb_eq in Hx, Hy. subst x y.
    exists a, e, u. rewrite append_empty_r. repeat split.
    + unfold app_name_i.
      now rewrite <- (name_shape_ext _ _ _ _ 31 a cls_lower_i cls_app_i).
    + unfold entity_name_i.
      now rewrite <- (name_shape_ext _ _ _ _ 63 e cls_lower_i cls_entity_i).
    + unfold ulid_text. apply andb_true_iff; split; [apply Nat.eqb_eq; lia|].
      now rewrite <- (all_chars_ext _ _ u cls_ulid_i).
  - intros (a & e & u & -> & Ha & He & Hu).
    unfold ulid_text in Hu. apply andb_true_iff in Hu. destruct Hu as [Hl Hu].
    apply Nat.eqb_eq in Hl.
    exists a, (":" ++ e ++ ":" ++ u). repeat split.
    + unfold app_name_i in Ha.
      now rewrite (name_shape_ext _ _ _ _ 31 a cls_lower_i cls_app_i).
    + apply match_seq_chr. exists ":"%char, (e ++ ":" ++ u). repeat split.
      apply match_seq_name. exists e, (":" ++ u). repeat split.
      * unfold entity_name_i in He.
        now rewrite (name_shape_ext _ _ _ _ 63 e cls_lower_i cls_entity_i).
      * apply match_seq_chr. exists ":"%char, u. repeat split.
        apply match_seq_quant; [lia|]. exists u, "".
        rewrite append_empty_r. repeat split; try lia.
        now rewrite (all_chars_ext _ _ u cls_ulid_i).
Qed.

End Patterns.

(* ================================================================== *)
(** ** [Urn.isValid], [Urn.parse] and [Urn.create] *)

Section Urn.

Lemma split_no_colon (a : string) :
  all_chars no_colon a = true -> split ":" a = [a].
Proof.
  induction a as [|c a IH]; [reflexivity|]. cbn [all_chars split].
  intros H; apply andb_true_iff in H; destruct H as [Hc Ha].
  unfold no_colon in Hc. apply negb_true_iff in Hc. rewrite Hc.
  now rewrite (IH Ha).
Qed.

Lemma split_segment (a rest : string) :
  all_chars no_colon a = true ->
  split ":" (a ++ String ":" rest) = a :: split ":" rest.
Proof.
  induction a as [|c a IH]; [reflexivity|]. cbn [all_chars split String.append].
  intros H; apply andb_true_iff in H; destruct H as [Hc Ha].
  unfold no_colon in Hc. apply negb_true_iff in Hc. rewrite Hc.
  now rewrite (IH Ha).
Qed.

Lemma all_chars_impl (P Q : ascii -> bool) (s : string) :
  (forall c, P c = true -> Q c = true) ->
  all_chars P s = true -> all_chars Q s = true.
Proof.
  intros H; induction s as [|c s IH]; [reflexivity|]. cbn [all_chars].
  intros E; apply andb_true_iff in E; destruct E as [Hc Hs].
  now rewrite (H c Hc), (IH Hs).
Qed.

Ltac each_char_imp c :=
  destruct c as [[] [] [] [] [] [] [] []]; vm_compute; congruence.

Lemma name_no_colon (first rest : ascii -> bool) (hi : nat) (s : string) :
  (forall c, first c = true -> no_colon c = true) ->
  (forall c, rest c = true -> no_colon c = true) ->
  name_shape first rest hi s = true -> all_chars no_colon s = true.
Proof.
  intros Hf Hr. destruct s as [|c p]; [reflexivity|]. cbn.
  intros H; apply andb_true_iff in H; destruct H as [Hc H].
  apply andb_true_iff in H; destruct H as [Hp _].
  now rewrite (Hf c Hc), (all_chars_impl rest no_colon p Hr Hp).
Qed.

Lemma app_name_i_no_colon (s : string) :
  app_name_i s = true -> all_chars no_colon s = true.
Proof.
  apply name_no_colon; intros c; each_char_imp c.
Qed.

Lemma entity_name_i_no_colon (s : string) :
  entity_name_i s = true -> all_chars no_colon s = true.
Proof.
  apply name_no_colon; intros c; each_char_imp c.
Qed.

Lemma ulid_text_no_colon (s : string) :
  ulid_text s = true -> all_chars no_colon s = true.
Proof.
  unfold ulid_text. intros H; apply andb_true_iff in H; destruct H as [_ H].
  revert H. apply all_chars_impl. intros c; each_char_imp c.
Qed.

(** A string [isValid] accepts splits into exactly its three segments. *)
Lemma split_valid (a e u : string) :
  app_name_i a = true -> entity_name_i e = true -> ulid_text u = true ->
  split ":" (a ++ ":" ++ e ++ ":" ++ u) = [a; e; u].
Proof.
  intros Ha He Hu.
  change (a ++ ":" ++ e ++ ":" ++ u)
    with (a ++ String ":" (e ++ String ":" u)).
  rewrite split_segment by now apply app_name_i_no_colon.
  rewrite split_segment by now apply entity_name_i_no_colon.
  now rewrite split_no_colon by now apply ulid_text_no_colon.
Qed.

(** [Urn.parse] succeeds exactly on the strings [isValid] accepts, and
    returns the three segments. *)
Lemma parse_valid (s : string) :
  Urn.isValid s = true ->
  exists a e u,
    s = a ++ ":" ++ e ++ ":" ++ u
    /\ app_name_i a = true /\ entity_name_i e = true /\ ulid_text u = true
    /\ Urn.parse s = Ok (Urn.mkComponents a e u).
Proof.
  intros H. pose proof H as G. apply isValid_urn_shape in G.
  destruct G as (a & e & u & E & Ha & He & Hu).
  exists a, e, u. repeat split; try assumption.
  unfold Urn.parse. rewrite H. cbn [negb]. subst s.
  now rewrite split_valid.
Qed.

(** [Urn.create] with a given identifier. *)
Lemma create_with_id (a e i : string) (ts : option Z) (w : World) :
  Urn.create a e (Some (Urn.mkOptions ts (Some i))) w
  = if negb (app_name a) then (Throw (UrnError INVALID_APP a), w)
    else if negb (entity_name e) then (Throw (UrnError INVALID_ENTITY e), w)
    else (Ok (a ++ ":" ++ e ++ ":" ++ i), w).
Proof.
  unfold Urn.create. rewrite test_APP_PATTERN, test_ENTITY_PATTERN.
  destruct (app_name a); [|reflexivity].
  destruct (entity_name e); reflexivity.
Qed.

(** The round trip of parse and create: for every string [isValid]
    accepts, [parse] returns its segments, and [create] on them returns the
    string when app and entity are in lower case. *)
Lemma parse_create_round_trip (s : string) (w : World) :
  Urn.isValid s = true ->
  exists c,
    Urn.parse s = Ok c
    /\ (app_name (Urn.app c) = true -> entity_name (Urn.entity c) = true ->
        Urn.create (Urn.app c) (Urn.entity c)
          (Some (Urn.mkOptions None (Some (Urn.id c)))) w = (Ok s, w)).
Proof.
  intros H. destruct (parse_valid s H) as (a & e & u & E & _ & _ & _ & P).
  exists (Urn.mkComponents a e u). split; [exact P|].
  cbn [Urn.app Urn.entity Urn.id]. intros Ha He.
  rewrite create_with_id, Ha, He. cbn [negb]. now subst s.
Qed.

(** In the grammar of lower-case names the first character of the string
    is a lower-case letter. *)
Lemma urn_grammar_first (s : string) :
  urn_grammar s -> exists c rest, s = String c rest /\ is_lower c = true.
Proof.
  intros (a & e & u & -> & Ha & _ & _).
  destruct a as [|c p]; [discriminate|].
  cbn in Ha. apply andb_true_iff in Ha. destruct Ha as [Hc _].
  exists c, (p ++ ":" ++ e ++ ":" ++ u). now split.
Qed.

(** C1, evaluated on the code.  [Urn.isValid] accepts exactly the strings
    app ':' entity ':' ulid whose app and entity are names with letters of
    either case: the [i] flag of [URN_PATTERN] covers the whole pattern,
    not the ulid segment alone.  So it returns true on
    CHAI:person:01ARZ3NDEKTSV4RRFFQ69G5FAV, which is not in the grammar of
    lower-case app and entity names. *)
Theorem isValid_upper_case_app :
  Urn.isValid "CHAI:person:01ARZ3NDEKTSV4RRFFQ69G5FAV" = true
  /\ ~ urn_grammar "CHAI:person:01ARZ3NDEKTSV4RRFFQ69G5FAV"
  /\ (forall s, Urn.isValid s = true <-> urn_grammar_i s).
Proof.
  split; [vm_compute; reflexivity|]. split.
  - intros H. apply urn_grammar_first in H.
    destruct H as (c & rest & E & Hc). injection E as <- _.
    vm_compute in Hc. discriminate.
  - apply isValid_urn_shape.
Qed.

(** C2, evaluated on the code.  [Urn.isValid] accepts
    CHAI:person:01ARZ3NDEKTSV4RRFFQ69G5FAV and [Urn.parse] returns its three
    segments, but [Urn.create] on them throws INVALID_APP instead of
    returning the string. *)
Theorem round_trip_upper_case_app (w : World) :
  Urn.isValid "CHAI:person:01ARZ3NDEKTSV4RRFFQ69G5FAV" = true
  /\ Urn.parse "CHAI:person:01ARZ3NDEKTSV4RRFFQ69G5FAV"
     = Ok (Urn.mkComponents "CHAI" "person" "01ARZ3NDEKTSV4RRFFQ69G5FAV")
  /\ Urn.create "CHAI" "person"
       (Some (Urn.mkOptions None (Some "01ARZ3NDEKTSV4RRFFQ69G5FAV"))) w
     = (Throw (UrnError INVALID_APP "CHAI"), w).
Proof.
  split; [vm_compute; reflexivity|]. split; [vm_compute; reflexivity|].
  now rewrite create_with_id.
Qed.

End Urn.

(* ================================================================== *)
(** ** The outcomes of [Urn.create] *)

Section Create.

Lemma generate_out_of_range (ts : option Z) (w : World) :
  let time := match ts with Some t => t | None => clock w (clock_reads w) end in
  let w1 := match ts with Some _ => w | None => snd (Date_now w) end in
  time < 0 \/ time > TIME_MAX ->
  Ulid.generate ts w = (Throw (RangeError time), w1).
Proof.
  intros time w1 H. unfold Ulid.generate, bind, ret, lift, read.
  destruct ts as [t|]; cbn [Date_now]; subst time w1;
    now rewrite encodeTime_out_of_range.
Qed.

Lemma generate_clock_in_range (ts : option Z) (w : World) :
  let time := match ts with Some t => t | None => clock w (clock_reads w) end in
  let w1 := match ts with Some _ => w | None => snd (Date_now w) end in
  0 <= time <= TIME_MAX ->
  Ulid.generate ts w
  = (Ok (digits TIME_LENGTH time ++ fst (encodeRandom RANDOM_LENGTH w1)),
     snd (encodeRandom RANDOM_LENGTH w1)).
Proof.
  intros time w1 H. destruct ts as [t|]; [now apply generate_in_range|].
  unfold Ulid.generate, bind, ret, lift, read. cbn [Date_now].
  subst time w1. rewrite encodeTime_in_range, Nat2Z.id by assumption.
  cbn [Date_now snd].
  now destruct (encodeRandom RANDOM_LENGTH _) as [r w'].
Qed.

(** What [generate] returns is a canonical ULID string. *)
Lemma generated_canonical (t : Z) (w : World) :
  canonical_ulid (digits TIME_LENGTH t ++ fst (encodeRandom RANDOM_LENGTH w)).
Proof.
  destruct (encodeRandom_canonical RANDOM_LENGTH w) as [Hl Hc].
  split.
  - now rewrite length_append, length_digits, Hl.
  - now rewrite canonical_append, canonical_digits, Hc.
Qed.

(** C7, as the code has it.  [app_name] and [entity_name] are the
    languages of APP_PATTERN and ENTITY_PATTERN.  [Urn.create] throws
    UrnError INVALID_APP with the app when the app is not an app name;
    UrnError INVALID_ENTITY with the entity when the app is an app name and
    the entity is not an entity name; otherwise it returns
    app:entity:id with the identifier of the options when there is one; and
    without one it generates a ULID from the timestamp of the options, an
    integer, or from the clock without one: when that integer time is
    within 0..2^48-1 it returns app:entity:ulid, and when it is an integer
    below 0 or above 2^48-1 the RangeError of the encoder comes out of
    [create].  A timestamp that is no integer is not covered. *)
Theorem create_outcomes
        (a e : string) (options : option Urn.UrnCreateOptions) (w : World) :
  let time := match Urn.timestamp_of options with
              | Some t => t
              | None => clock w (clock_reads w)
              end in
  let w1 := match Urn.timestamp_of options with
            | Some _ => w
            | None => snd (Date_now w)
            end in
  (app_name a = false ->
   Urn.create a e options w = (Throw (UrnError INVALID_APP a), w))
  /\ (app_name a = true -> entity_name e = false ->
      Urn.create a e options w = (Throw (UrnError INVALID_ENTITY e), w))
  /\ (app_name a = true -> entity_name e = true ->
      forall i, Urn.id_of options = Some i ->
      Urn.create a e options w = (Ok (a ++ ":" ++ e ++ ":" ++ i), w))
  /\ (app_name a = true -> entity_name e = true ->
      Urn.id_of options = None ->
      0 <= time <= 2 ^ 48 - 1 ->
      exists ulid w',
        Ulid.generate (Urn.timestamp_of options) w = (Ok ulid, w')
        /\ canonical_ulid ulid
        /\ Ulid.timestamp ulid = Ok time
        /\ Urn.create a e options w = (Ok (a ++ ":" ++ e ++ ":" ++ ulid), w'))
  /\ (app_name a = true -> entity_name e = true ->
      Urn.id_of options = None ->
      time < 0 \/ time > 2 ^ 48 - 1 ->
      Urn.create a e options w = (Throw (RangeError time), w1)).
Proof.
  intros time w1. unfold Urn.create.
  rewrite test_APP_PATTERN, test_ENTITY_PATTERN.
  split; [|split; [|split; [|split]]].
  - now intros ->.
  - now intros -> ->.
  - now intros -> -> i ->.
  - intros -> -> -> H. cbn [negb].
    exists (digits TIME_LENGTH time ++ fst (encodeRandom RANDOM_LENGTH w1)),
           (snd (encodeRandom RANDOM_LENGTH w1)).
    pose proof (generate_clock_in_range (Urn.timestamp_of options) w H) as G.
    fold time w1 in G. split; [exact G|].
    split; [apply generated_canonical|]. split.
    + unfold Ulid.timestamp.
      rewrite decodeTime_canonical
        by (apply length_digits || apply canonical_digits).
      rewrite value_of_digits, Z.mod_small; [reflexivity|].
      change (32 ^ Z.of_nat TIME_LENGTH) with (2 ^ 50). lia.
    + unfold bind at 1. now rewrite G.
  - intros -> -> -> H. cbn [negb].
    pose proof (generate_out_of_range (Urn.timestamp_of options) w H) as G.
    fold time w1 in G. unfold bind at 1. now rewrite G.
Qed.

Lemma create_outcomes_witness :
  Urn.create "CHAI" "person" None (steady_world 5 7)
  = (Throw (UrnError INVALID_APP "CHAI"), steady_world 5 7)
  /\ Urn.create "chai" "Person" None (steady_world 5 7)
     = (Throw (UrnError INVALID_ENTITY "Person"), steady_world 5 7)
  /\ Urn.create "chai" "person"
       (Some (Urn.mkOptions None (Some "01ARZ3NDEKTSV4RRFFQ69G5FAV")))
       (steady_world 5 7)
     = (Ok "chai:person:01ARZ3NDEKTSV4RRFFQ69G5FAV", steady_world 5 7).
Proof.
  split; [|split].
  - apply (proj1 (create_outcomes "CHAI" "person" None (steady_world 5 7))).
    reflexivity.
  - apply (proj1 (proj2 (create_outcomes "chai" "Person" None
                           (steady_world 5 7))));
      reflexivity.
  - apply (proj1 (proj2 (proj2 (create_outcomes "chai" "person"
              (Some (Urn.mkOptions None (Some "01ARZ3NDEKTSV4RRFFQ69G5FAV")))
              (steady_world 5 7))))); reflexivity.
Defined.

(** C7, as it is stated, fails on a timestamp outside 0..2^48-1: app and
    entity are valid and no identifier is given, yet [create] returns no
    string. *)
Lemma create_timestamp_counterexample :
  RegExp.test APP_PATTERN "chai" = true
  /\ RegExp.test ENTITY_PATTERN "person" = true
  /\ Urn.create "chai" "person" (Some (Urn.mkOptions (Some (-1)) None))
       (steady_world 5 7)
     = (Throw (RangeError (-1)), steady_world 5 7).
Proof.
  split; [vm_compute; reflexivity|]. split; vm_compute; reflexivity.
Qed.

End Create.

(* ================================================================== *)
(** ** More on the codec *)

Section CodecMore.

Lemma get_random_digits (bytes : list Z) (i : nat) :
  String.get i (random_digits bytes)
  = match nth_error bytes i with
    | Some b => Some (digit_char (b mod 32))
    | None => None
    end.
Proof.
  revert i; induction bytes as [|b bytes IH]; intros [|i]; cbn; auto.
Qed.

(** [encodeRandom(n)] draws exactly [n] values of the random source and
    nothing from the clock, and returns [n] symbols: the i-th is the symbol
    of the i-th value drawn, modulo 32. *)
Theorem encodeRandom_symbols (n : nat) (w : World) :
  String.length (fst (encodeRandom n w)) = n
  /\ (forall i, (i < n)%nat ->
        String.get i (fst (encodeRandom n w))
        = Some (digit_char (entropy w (entropy_used w + i) mod 32)))
  /\ entropy_used (snd (encodeRandom n w)) = (entropy_used w + n)%nat
  /\ entropy (snd (encodeRandom n w)) = entropy w
  /\ clock_reads (snd (encodeRandom n w)) = clock_reads w
  /\ clock (snd (encodeRandom n w)) = clock w.
Proof.
  destruct (encodeRandom_canonical n w) as [Hl _].
  split; [exact Hl|]. split; [|repeat split].
  intros i Hi. unfold encodeRandom.
  destruct (getRandomValues_bytes n w) as [Hpos _].
  unfold getRandomValues in *. cbn [fst] in *.
  rewrite encodeRandom_loop_digits by exact Hpos. cbn [String.append].
  rewrite get_random_digits.
  rewrite nth_error_map, nth_error_seq.
  replace (i <? n)%nat with true by (symmetry; apply Nat.ltb_lt; exact Hi).
  cbn [option_map Nat.add].
  rewrite (Z.mod_mod_divide _ 256 32) by (exists 8; reflexivity).
  reflexivity.
Qed.

Lemma encodeRandom_symbols_witness :
  String.get 3 (fst (encodeRandom 16 (two_reads 3 5)))
  = Some (digit_char (entropy (two_reads 3 5)
                        (entropy_used (two_reads 3 5) + 3) mod 32)).
Proof.
  apply (proj1 (proj2 (encodeRandom_symbols 16 (two_reads 3 5)))). lia.
Defined.

(** The loop of [decodeTime] walks the string from the left. *)
Lemma decodeTime_loop_prefix (n : nat) (p s : string) (acc : Z) :
  decodeTime_loop n (String.length p) (p ++ s) acc = decode_prefix n s acc.
Proof.
  revert p s acc; induction n as [|n IH]; intros p s acc; [reflexivity|].
  cbn [decodeTime_loop decode_prefix]. destruct s as [|c s].
  - rewrite at_index_past_end; [reflexivity|].
    rewrite append_empty_r. lia.
  - rewrite at_index_append_mid.
    destruct (decodeChar (String c "")) as [d|e]; [|reflexivity].
    replace (p ++ String c s) with ((p ++ String c "") ++ s)
      by (now rewrite append_assoc).
    replace (S (String.length p)) with (String.length (p ++ String c ""))
      by (rewrite length_append; simpl; lia).
    apply IH.
Qed.

Lemma decode_prefix_substring (n : nat) (s : string) (acc : Z) :
  decode_prefix n (String.substring 0 n s) acc = decode_prefix n s acc.
Proof.
  revert s acc; induction n as [|n IH]; intros s acc; [reflexivity|].
  destruct s as [|c s]; [reflexivity|]. cbn [String.substring decode_prefix].
  destruct (decodeChar (String c "")); [apply IH | reflexivity].
Qed.

Lemma decodeTime_prefix (s : string) :
  decodeTime s = decode_prefix TIME_LENGTH s 0.
Proof.
  unfold decodeTime.
  pose proof (decodeTime_loop_prefix TIME_LENGTH ""
                (String.substring 0 TIME_LENGTH s) 0) as E.
  cbn [String.length String.append] in E. rewrite E.
  apply decode_prefix_substring.
Qed.

Lemma decode_prefix_append (n : nat) (t r : string) (acc : Z) :
  String.length t = n ->
  decode_prefix n (t ++ r) acc = decode_prefix n t acc.
Proof.
  revert t acc; induction n as [|n IH]; intros t acc Hl; [reflexivity|].
  destruct t as [|c t]; [discriminate|]. cbn [String.append decode_prefix].
  destruct (decodeChar (String c "")); [|reflexivity].
  apply IH. simpl in Hl. lia.
Qed.

Lemma decode_prefix_short (n : nat) (s : string) (acc : Z) :
  (String.length s < n)%nat ->
  exists e, decode_prefix n s acc = Throw e
            /\ (all_chars (fun c => match decodeChar (String c "") with
                                    | Ok _ => true
                                    | Throw _ => false
                                    end) s = true -> e = TypeError).
Proof.
  revert s acc; induction n as [|n IH]; intros s acc Hl; [lia|].
  destruct s as [|c s]; cbn [decode_prefix all_chars].
  - exists TypeError. auto.
  - destruct (decodeChar (String c "")) as [d|e].
    + destruct (IH s (acc * 32 + d)) as (e & He & Hall); [simpl in Hl; lia|].
      exists e. split; [exact He|]. cbn [andb]. exact Hall.
    + exists e. split; [reflexivity|]. discriminate.
Qed.

Lemma decodeChar_range (c : ascii) (d : Z) :
  decodeChar (String c "") = Ok d -> 0 <= d < 32.
Proof.
  destruct c as [[] [] [] [] [] [] [] []]; intros H; vm_compute in H;
    try discriminate; injection H as <-; lia.
Qed.

Lemma decode_prefix_range (n : nat) (s : string) (acc v : Z) :
  decode_prefix n s acc = Ok v ->
  acc * 32 ^ Z.of_nat n <= v < (acc + 1) * 32 ^ Z.of_nat n.
Proof.
  revert s acc; induction n as [|n IH]; intros s acc H.
  - cbn in H. injection H as <-. change (32 ^ Z.of_nat 0) with 1. lia.
  - destruct s as [|c s]; [discriminate|]. cbn [decode_prefix] in H.
    destruct (decodeChar (String c "")) as [d|e] eqn:E; [|discriminate].
    apply decodeChar_range in E. apply IH in H.
    rewrite Nat2Z.inj_succ, Z.pow_succ_r by lia.
    assert (0 < 32 ^ Z.of_nat n) by (apply Z.pow_pos_nonneg; lia).
    nia.
Qed.

(** [decodeTime] reads the first ten characters and nothing else: what
    follows them does not matter, a string of fewer than ten characters
    makes it throw (a TypeError when the characters it has are all
    decodable), and a number it returns is below 32^10 = 2^50. *)
Theorem decodeTime_first_ten (s : string) :
  (forall t r, s = t ++ r -> String.length t = 10%nat ->
               decodeTime s = decodeTime t)
  /\ ((String.length s < 10)%nat ->
      exists e, decodeTime s = Throw e
                /\ (all_chars (fun c => match decodeChar (String c "") with
                                        | Ok _ => true
                                        | Throw _ => false
                                        end) s = true -> e = TypeError))
  /\ (forall v, decodeTime s = Ok v ->
                (10 <= String.length s)%nat /\ 0 <= v < 2 ^ 50).
Proof.
  split; [|split].
  - intros t r -> Hl. rewrite !decodeTime_prefix.
    now apply decode_prefix_append.
  - intros Hl. rewrite decodeTime_prefix. now apply decode_prefix_short.
  - intros v H. rewrite decodeTime_prefix in H. split.
    + destruct (Nat.le_gt_cases 10 (String.length s)) as [L|L]; [exact L|].
      destruct (decode_prefix_short TIME_LENGTH s 0 L) as (e & He & _).
      rewrite He in H. discriminate.
    + apply decode_prefix_range in H.
      change (32 ^ Z.of_nat TIME_LENGTH) with (2 ^ 50) in H. lia.
Qed.

Lemma decodeTime_first_ten_witness :
  decodeTime ("01ARYZ6S41" ++ "anything") = decodeTime "01ARYZ6S41"
  /\ (exists e, decodeTime "01ARYZ" = Throw e)
  /\ ((10 <= String.length "01ARYZ6S41")%nat /\ 0 <= 1469918176385 < 2 ^ 50).
Proof.
  split; [|split].
  - apply (proj1 (decodeTime_first_ten ("01ARYZ6S41" ++ "anything"))
             "01ARYZ6S41" "anything"); reflexivity.
  - destruct (proj1 (proj2 (decodeTime_first_ten "01ARYZ"))) as (e & He & _).
    + cbn. lia.
    + exists e. exact He.
  - apply (proj2 (proj2 (decodeTime_first_ten "01ARYZ6S41"))). reflexivity.
Defined.

End CodecMore.
(* ================================================================== *)
(** ** Valid identifiers and their timestamps *)

Section ValidUlid.

(** Decoding the time part of a canonical identifier and encoding it again
    gives the time part back exactly when the time is at most TIME_MAX,
    which is when the first symbol is one of 0..7; above it [encodeTime]
    throws the RangeError. *)
Theorem encode_decoded_time (t r : string) :
  String.length t = 10%nat -> canonical t = true ->
  exists v,
    Ulid.timestamp (t ++ r) = Ok v
    /\ (v <= TIME_MAX <-> first_char (fun c => digit_value c <=? 7) t = true)
    /\ (v <= TIME_MAX -> encodeTime v 10 = Ok t)
    /\ (v > TIME_MAX -> encodeTime v 10 = Throw (RangeError v)).
Proof.
  intros Hl Hc. exists (value_of t).
  pose proof (value_of_range t Hc) as Hr.
  split; [now apply decodeTime_canonical|]. split; [|split].
  - destruct t as [|c t]; [discriminate|].
    cbn [canonical] in Hc. apply andb_true_iff in Hc. destruct Hc as [Hs Hct].
    pose proof (value_of_range t Hct) as Hrt.
    pose proof (digit_value_range c Hs) as Hd.
    cbn [first_char value_of]. simpl in Hl. injection Hl as Hl.
    rewrite Hl in *. change (32 ^ Z.of_nat 9) with 35184372088832 in *.
    unfold TIME_MAX. change (2 ^ 48 - 1) with 281474976710655.
    rewrite Z.leb_le. lia.
  - intros Hv. rewrite encodeTime_in_range by lia.
    change (Z.to_nat 10) with 10%nat. rewrite <- Hl.
    now rewrite digits_value_of.
  - intros Hv. apply encodeTime_out_of_range. lia.
Qed.

Lemma encode_decoded_time_witness :
  exists v,
    Ulid.timestamp ("01ARYZ6S41" ++ "0000000000000000") = Ok v
    /\ (v <= TIME_MAX
        <-> first_char (fun c => digit_value c <=? 7) "01ARYZ6S41" = true)
    /\ (v <= TIME_MAX -> encodeTime v 10 = Ok "01ARYZ6S41")
    /\ (v > TIME_MAX -> encodeTime v 10 = Throw (RangeError v)).
Proof.
  apply (encode_decoded_time "01ARYZ6S41" "0000000000000000"); reflexivity.
Defined.

(** The runs of the alphabet, as (start, length) pairs. *)
Lemma alphabet_runs_checked :
  forallb
    (fun i =>
       forallb
         (fun len =>
            match decodeChar (String.substring i (S len) ENCODING) with
            | Ok d => (d =? Z.of_nat i) || (32 <? i + S len)%nat
            | Throw _ => (32 <? i + S len)%nat
            end)
         (seq 0 32))
    (seq 0 32) = true.
Proof. vm_compute. reflexivity. Qed.

(** [decodeChar] does not check that its argument is one character: on the
    empty string it returns 0, and on a run of two or more consecutive
    symbols of the alphabet it returns the digit of the first. *)
Theorem decodeChar_not_one_character (i len : nat) :
  (0 < len)%nat -> (i + len <= 32)%nat ->
  decodeChar "" = Ok 0
  /\ decodeChar (String.substring i len ENCODING) = Ok (Z.of_nat i).
Proof.
  intros Hlen Hi. split; [reflexivity|].
  pose proof alphabet_runs_checked as H.
  rewrite forallb_forall in H. specialize (H i).
  rewrite forallb_forall in H.
  destruct len as [|len]; [lia|].
  specialize (H ltac:(apply in_seq; lia) len ltac:(apply in_seq; lia)).
  replace (32 <? i + S len)%nat with false in H
    by (symmetry; apply Nat.ltb_ge; lia).
  destruct (decodeChar (String.substring i (S len) ENCODING)); [|discriminate].
  rewrite orb_false_r in H. apply Z.eqb_eq in H. now subst.
Qed.

Lemma decodeChar_not_one_character_witness :
  decodeChar "" = Ok 0 /\ decodeChar "ST" = Ok 25.
Proof.
  apply (decodeChar_not_one_character 25 2); lia.
Defined.

Lemma symbol_upper (c : ascii) :
  is_symbol c = true -> upper_char c = c.
Proof.
  destruct c as [[] [] [] [] [] [] [] []]; vm_compute; congruence.
Qed.

Lemma decodeChar_upper_symbol (c : ascii) :
  is_symbol (upper_char c) = true ->
  decodeChar (String c "") = Ok (digit_value (upper_char c)).
Proof.
  destruct c as [[] [] [] [] [] [] [] []]; vm_compute; congruence.
Qed.

Lemma canonical_toUpperCase (s : string) :
  canonical (toUpperCase s) = all_chars (fun c => is_symbol (upper_char c)) s.
Proof.
  induction s as [|c s IH]; [reflexivity|].
  cbn [toUpperCase canonical all_chars]. now rewrite IH.
Qed.

Lemma length_toUpperCase (s : string) :
  String.length (toUpperCase s) = String.length s.
Proof. induction s as [|c s IH]; [reflexivity|]. cbn. now rewrite IH. Qed.

Lemma canonical_all_chars (s : string) :
  canonical s = true ->
  all_chars (fun c => is_symbol (upper_char c)) s = true.
Proof.
  induction s as [|c s IH]; [reflexivity|]. cbn [canonical all_chars].
  intros H. apply andb_true_iff in H. destruct H as [Hc Hs].
  now rewrite (symbol_upper c Hc), Hc, IH.
Qed.

(** A canonical ULID string is accepted by [Ulid.isValid]. *)
Lemma canonical_ulid_valid (s : string) :
  canonical_ulid s -> Ulid.isValid s = true.
Proof.
  intros [Hl Hc]. rewrite isValid_ulid_text. unfold ulid_text.
  rewrite Hl, canonical_all_chars by assumption. reflexivity.
Qed.

Lemma decode_prefix_upper (n : nat) (s : string) (acc : Z) :
  all_chars (fun c => is_symbol (upper_char c)) s = true ->
  decode_prefix n s acc = decode_prefix n (toUpperCase s) acc.
Proof.
  revert s acc; induction n as [|n IH]; intros s acc H; [reflexivity|].
  destruct s as [|c s]; [reflexivity|].
  cbn [all_chars] in H. apply andb_true_iff in H. destruct H as [Hc Hs].
  cbn [toUpperCase decode_prefix].
  rewrite (decodeChar_upper_symbol c Hc).
  rewrite (decodeChar_symbol (upper_char c) Hc).
  now apply IH.
Qed.

(** On every string [Ulid.isValid] accepts, [Ulid.timestamp] returns a
    number, below 2^50, and the same number as on the upper-cased string,
    which is a canonical ULID string. *)
Theorem timestamp_of_valid (s : string) :
  Ulid.isValid s = true ->
  canonical_ulid (toUpperCase s)
  /\ exists v,
       Ulid.timestamp s = Ok v
       /\ Ulid.timestamp (toUpperCase s) = Ok v
       /\ 0 <= v < 2 ^ 50.
Proof.
  rewrite isValid_ulid_text. unfold ulid_text.
  intros H. apply andb_true_iff in H. destruct H as [Hl Hc].
  apply Nat.eqb_eq in Hl.
  assert (Hcan : canonical_ulid (toUpperCase s)).
  { split; [now rewrite length_toUpperCase|].
    now rewrite canonical_toUpperCase. }
  split; [exact Hcan|].
  destruct (canonical_ulid_parts _ Hcan)
    as (t & r & E & Ht & Hct & _ & _ & _ & Hts).
  exists (value_of t). split; [|split].
  - unfold Ulid.timestamp in *. rewrite decodeTime_prefix in *.
    now rewrite (decode_prefix_upper _ s 0 Hc).
  - exact Hts.
  - pose proof (value_of_range t Hct) as Hr. rewrite Ht in Hr.
    change (32 ^ Z.of_nat TIME_LENGTH) with (2 ^ 50) in Hr. exact Hr.
Qed.

Lemma timestamp_of_valid_witness :
  canonical_ulid (toUpperCase "01aryz6s41tsv4rrffq69g5fav")
  /\ exists v,
       Ulid.timestamp "01aryz6s41tsv4rrffq69g5fav" = Ok v
       /\ Ulid.timestamp (toUpperCase "01aryz6s41tsv4rrffq69g5fav") = Ok v
       /\ 0 <= v < 2 ^ 50.
Proof.
  apply (timestamp_of_valid "01aryz6s41tsv4rrffq69g5fav").
  vm_compute. reflexivity.
Defined.

(** For an integer time (the timestamp given, an integer, or else the
    clock read): [Ulid.generate] returns an identifier exactly when the
    time is within 0..TIME_MAX; the identifier is accepted by
    [Ulid.isValid] and [Ulid.parse] returns it unchanged, and sixteen
    values of the random source have been drawn.  For an integer time
    below 0 or above TIME_MAX it throws the RangeError before it draws
    any.  A timestamp that is no integer is not covered. *)
Theorem generate_valid (ts : option Z) (w : World) :
  let time := match ts with Some t => t | None => clock w (clock_reads w) end in
  (0 <= time <= TIME_MAX ->
   exists id w',
     Ulid.generate ts w = (Ok id, w')
     /\ Ulid.isValid id = true
     /\ Ulid.parse id = Ok id
     /\ entropy_used w' = (entropy_used w + 16)%nat)
  /\ (time < 0 \/ time > TIME_MAX ->
      exists w',
        Ulid.generate ts w = (Throw (RangeError time), w')
        /\ entropy_used w' = entropy_used w).
Proof.
  intros time. split.
  - intros H.
    pose proof (generate_clock_in_range ts w H) as G. cbv zeta in G.
    fold time in G.
    eexists. eexists. split; [exact G|].
    assert (V : Ulid.isValid
                  (digits TIME_LENGTH time
                   ++ fst (encodeRandom RANDOM_LENGTH
                             match ts with
                             | Some _ => w
                             | None => snd (Date_now w)
                             end)) = true)
      by (apply canonical_ulid_valid, generated_canonical).
    split; [exact V|]. split.
    + unfold Ulid.parse. now rewrite V.
    + destruct ts; reflexivity.
  - intros H.
    pose proof (generate_out_of_range ts w H) as G. cbv zeta in G.
    fold time in G. eexists. split; [exact G|].
    destruct ts; reflexivity.
Qed.

Lemma generate_valid_witness :
  exists id w',
    Ulid.generate None (steady_world 1469918176385 7) = (Ok id, w')
    /\ Ulid.isValid id = true
    /\ Ulid.parse id = Ok id
    /\ entropy_used w' = (entropy_used (steady_world 1469918176385 7) + 16)%nat.
Proof.
  apply (proj1 (generate_valid None (steady_world 1469918176385 7))).
  cbn. unfold TIME_MAX. lia.
Defined.

(** [Ulid.compare] is case-sensitive where [Ulid.isValid] and
    [Ulid.timestamp] are not: an identifier that begins with a lower-case
    letter compares greater than every identifier that begins with a digit
    or an upper-case letter, whatever their timestamps. *)
Theorem compare_case_sensitive (a b : string) :
  first_char is_lower a = true ->
  first_char (fun c => is_digit c || is_upper c) b = true ->
  Ulid.compare a b = 1 /\ Ulid.compare b a = -1.
Proof.
  destruct a as [|x a]; [discriminate|]. destruct b as [|y b]; [discriminate|].
  cbn [first_char]. intros Hx Hy.
  assert (G : Ascii.compare x y = Gt).
  { unfold Ascii.compare. apply N.compare_gt_iff.
    unfold is_lower, is_digit, is_upper in *.
    apply andb_true_iff in Hx. destruct Hx as [Hx _]. apply N.leb_le in Hx.
    apply orb_true_iff in Hy. destruct Hy as [Hy|Hy];
      apply andb_true_iff in Hy; destruct Hy as [_ Hy]; apply N.leb_le in Hy;
      lia. }
  rewrite !compare_by_cases. cbn [String.compare].
  rewrite (Ascii.compare_antisym y x), G. cbn. auto.
Qed.

Lemma compare_case_sensitive_witness :
  Ulid.timestamp "a0000000000000000000000000" = Ok 351843720888320
  /\ Ulid.timestamp "Z0000000000000000000000000" = Ok 1090715534753792
  /\ Ulid.compare "a0000000000000000000000000" "Z0000000000000000000000000" = 1
  /\ Ulid.compare "Z0000000000000000000000000" "a0000000000000000000000000" = -1.
Proof.
  split; [reflexivity|]. split; [reflexivity|].
  apply (compare_case_sensitive "a0000000000000000000000000"
                                "Z0000000000000000000000000"); reflexivity.
Defined.

End ValidUlid.
(* ================================================================== *)
(** ** The sequencer over any clock *)

Section SequencerMore.

(** After a call that returned [prev], a call whose clock read is a later
    time, at most TIME_MAX, draws a fresh random portion and returns an
    identifier greater than [prev]. *)
Theorem clock_progress
        (g g1 : Ulid.Sequencer) (w w1 : World) (prev : string) :
  Ulid.next g w = (Ok prev, g1, w1) ->
  let now := clock w1 (clock_reads w1) in
  Ulid.lastTime g1 < now <= TIME_MAX ->
  let fresh := fst (encodeRandom RANDOM_LENGTH (snd (Date_now w1))) in
  let w2 := snd (encodeRandom RANDOM_LENGTH (snd (Date_now w1))) in
  let id := digits TIME_LENGTH now ++ fresh in
  Ulid.next g1 w1 = (Ok id, Ulid.mkSequencer now fresh, w2)
  /\ str_lt prev id = true.
Proof.
  intros Hprev now Hnow fresh w2 id.
  destruct (next_returns g g1 w w1 prev Hprev) as (Hr0 & Hlast & Eprev).
  split.
  - pose proof (next_other_ms g1 w1) as E. cbv zeta in E. fold now in E.
    rewrite E by lia.
    now rewrite encodeTime_in_range, Nat2Z.id by lia.
  - unfold id. rewrite Eprev. unfold str_lt, String.ltb.
    rewrite compare_append by (now rewrite !length_digits).
    rewrite compare_digits
      by (change (32 ^ Z.of_nat TIME_LENGTH) with (2 ^ 50);
          unfold TIME_MAX in *; lia).
    rewrite <- Hlast.
    destruct Hnow as [Hlt _]. now apply Z.compare_lt_iff in Hlt as ->.
Qed.

Lemma clock_progress_witness :
  Ulid.next Ulid.monotonic (two_reads 3 5)
  = (Ok "00000000030123456789ABCDEF",
     Ulid.mkSequencer 3 "0123456789ABCDEF",
     later (two_reads 3 5) 1 16)
  /\ Ulid.next (Ulid.mkSequencer 3 "0123456789ABCDEF")
               (later (two_reads 3 5) 1 16)
     = (Ok "0000000005GHJKMNPQRSTVWXYZ",
        Ulid.mkSequencer 5 "GHJKMNPQRSTVWXYZ",
        later (two_reads 3 5) 2 32)
  /\ str_lt "00000000030123456789ABCDEF" "0000000005GHJKMNPQRSTVWXYZ" = true.
Proof.
  split; [reflexivity|].
  apply (clock_progress Ulid.monotonic
           (Ulid.mkSequencer 3 "0123456789ABCDEF")
           (two_reads 3 5) (later (two_reads 3 5) 1 16)
           "00000000030123456789ABCDEF" eq_refl).
  cbn. unfold TIME_MAX. lia.
Defined.

(** What one call does to a state whose random portion is canonical and
    either sixteen symbols long or still empty at time 0. *)
Lemma next_step (g : Ulid.Sequencer) (w : World) :
  canonical (Ulid.lastRandom g) = true ->
  (String.length (Ulid.lastRandom g) = 16%nat
   \/ (Ulid.lastRandom g = "" /\ Ulid.lastTime g = 0)) ->
  let now := clock w (clock_reads w) in
  let r := fst (fst (Ulid.next g w)) in
  let g' := snd (fst (Ulid.next g w)) in
  let w' := snd (Ulid.next g w) in
  canonical (Ulid.lastRandom g') = true
  /\ (String.length (Ulid.lastRandom g') = 16%nat
      \/ (Ulid.lastRandom g' = "" /\ Ulid.lastTime g' = 0))
  /\ (String.length (Ulid.lastRandom g) = 16%nat \/ now <> Ulid.lastTime g ->
      String.length (Ulid.lastRandom g') = 16%nat)
  /\ Ulid.lastTime g' = now
  /\ clock w' = clock w
  /\ clock_reads w' = S (clock_reads w)
  /\ match r with
     | Ok id => 0 <= now <= TIME_MAX
                /\ id = digits TIME_LENGTH now ++ Ulid.lastRandom g'
     | Throw e => e = RangeError now /\ (now < 0 \/ now > TIME_MAX)
     end.
Proof.
  intros Hc Hl now r g' w'. subst r g' w'. unfold Ulid.next.
  change (Date_now w) with (now, snd (Date_now w)). cbv beta iota.
  assert (Henc : forall (gx : Ulid.Sequencer) (wx : World),
    let res := match encodeTime now (Z.of_nat TIME_LENGTH) with
               | Ok t => (Ok (t ++ Ulid.lastRandom gx), gx, wx)
               | Throw e => (Throw e, gx, wx)
               end in
    snd (fst res) = gx /\ snd res = wx
    /\ match fst (fst res) with
       | Ok id => 0 <= now <= TIME_MAX
                  /\ id = digits TIME_LENGTH now ++ Ulid.lastRandom gx
       | Throw e => e = RangeError now /\ (now < 0 \/ now > TIME_MAX)
       end).
  { intros gx wx.
    destruct (Z_lt_dec now 0) as [L|L];
      [|destruct (Z_gt_dec now TIME_MAX) as [G|G]].
    - rewrite encodeTime_out_of_range by lia. cbn. auto.
    - rewrite encodeTime_out_of_range by lia. cbn. auto.
    - rewrite encodeTime_in_range, Nat2Z.id by lia. cbn [fst snd].
      repeat split; (lia || reflexivity). }
  destruct (Z.eqb_spec now (Ulid.lastTime g)) as [E|N].
  - rewrite increment_canonical by exact Hc.
    set (gx := Ulid.mkSequencer _ _).
    destruct (Henc gx (snd (Date_now w))) as (E1 & E2 & E3).
    cbv zeta in E1, E2, E3. rewrite E1, E2. subst gx. cbn [Ulid.lastRandom Ulid.lastTime] in *.
    rewrite canonical_digits, length_digits.
    repeat split; auto.
    + destruct Hl as [Hl|[Hl Ht]]; [now left|right].
      rewrite Hl. cbn. auto.
    + intros [H|H]; [exact H | contradiction].
  - destruct (encodeRandom_canonical RANDOM_LENGTH (snd (Date_now w)))
      as [Hlen Hcan].
    destruct (encodeRandom RANDOM_LENGTH (snd (Date_now w))) as [fresh w2]
      eqn:Er.
    cbn [fst snd] in Hlen, Hcan.
    set (gx := Ulid.mkSequencer _ _).
    destruct (Henc gx w2) as (E1 & E2 & E3).
    cbv zeta in E1, E2, E3. rewrite E1, E2. subst gx. cbn [Ulid.lastRandom Ulid.lastTime] in *.
    assert (W : w2 = snd (encodeRandom RANDOM_LENGTH (snd (Date_now w))))
      by (now rewrite Er).
    repeat split; auto; rewrite W; reflexivity.
Qed.

Lemma calls_outputs (n : nat) :
  forall (g : Ulid.Sequencer) (w : World) (i : nat),
  canonical (Ulid.lastRandom g) = true ->
  (String.length (Ulid.lastRandom g) = 16%nat
   \/ (Ulid.lastRandom g = "" /\ Ulid.lastTime g = 0)) ->
  match nth_error (fst (fst (Ulid.calls n g w))) i with
  | Some r =>
      let now := clock w (clock_reads w + i) in
      match r with
      | Ok id =>
          0 <= now <= TIME_MAX
          /\ Ulid.timestamp id = Ok now
          /\ canonical id = true
          /\ (String.length id = 26%nat \/ (id = "0000000000" /\ now = 0))
          /\ (String.length (Ulid.lastRandom g) = 16%nat
              \/ clock w (clock_reads w) <> Ulid.lastTime g ->
              String.length id = 26%nat)
      | Throw e => e = RangeError now /\ (now < 0 \/ now > TIME_MAX)
      end
  | None => (n <= i)%nat
  end.
Proof.
  induction n as [|n IH]; intros g w i Hc Hl.
  - cbn. destruct i; cbn; lia.
  - cbn [Ulid.calls].
    pose proof (next_step g w Hc Hl) as S. cbv zeta in S.
    destruct (Ulid.next g w) as [[r g'] w']. cbn [fst snd] in S.
    destruct S as (Hc' & Hl' & H16 & Ht' & Hck & Hrd & Hr).
    specialize (IH g' w').
    destruct (Ulid.calls n g' w') as [[rs g''] w''].
    cbn [fst snd] in *.
    destruct i as [|i]; cbn [nth_error].
    + rewrite Nat.add_0_r. destruct r as [id|e]; [|exact Hr].
      destruct Hr as [Hrange ->].
      split; [exact Hrange|]. split; [|split; [|split]].
      * unfold Ulid.timestamp.
        rewrite decodeTime_canonical
          by (apply length_digits || apply canonical_digits).
        rewrite value_of_digits, Z.mod_small; [reflexivity|].
        change (32 ^ Z.of_nat TIME_LENGTH) with (2 ^ 50).
        unfold TIME_MAX in Hrange. lia.
      * now rewrite canonical_append, canonical_digits, Hc'.
      * destruct Hl' as [Hl'|[Hl' Hz]].
        -- left. now rewrite length_append, length_digits, Hl'.
        -- right. rewrite Hl', append_empty_r, <- Ht', Hz. auto.
      * intros H. now rewrite length_append, length_digits, (H16 H).
    + specialize (IH i Hc' Hl').
      rewrite Hck, Hrd in IH.
      replace (clock_reads w + S i)%nat with (S (clock_reads w) + i)%nat by lia.
      destruct (nth_error rs i) as [[id|e]|]; [| exact IH | lia].
      destruct IH as (A & B & C & D & E).
      repeat split; tauto.
Qed.

(** Every call of a new generator reads the clock once.  The i-th call
    throws exactly when its clock read is outside 0..TIME_MAX, and
    otherwise returns a canonical string whose timestamp is that clock
    read: 26 symbols, or the ten time symbols alone while the clock is at
    0; never the latter when the first clock read was not 0. *)
Theorem generator_outputs (n : nat) (w : World) (i : nat) :
  match nth_error (fst (fst (Ulid.calls n Ulid.monotonic w))) i with
  | Some r =>
      let now := clock w (clock_reads w + i) in
      match r with
      | Ok id =>
          0 <= now <= TIME_MAX
          /\ Ulid.timestamp id = Ok now
          /\ canonical id = true
          /\ (String.length id = 26%nat \/ (id = "0000000000" /\ now = 0))
          /\ (clock w (clock_reads w) <> 0 -> String.length id = 26%nat)
      | Throw e => e = RangeError now /\ (now < 0 \/ now > TIME_MAX)
      end
  | None => (n <= i)%nat
  end.
Proof.
  pose proof (calls_outputs n Ulid.monotonic w i eq_refl
                (or_intror (conj eq_refl eq_refl))) as H.
  destruct (nth_error _ i) as [[id|e]|]; try exact H.
  destruct H as (A & B & C & D & E). repeat split; tauto.
Qed.

Lemma generator_outputs_witness :
  0 <= 5 <= TIME_MAX
  /\ Ulid.timestamp "0000000005GHJKMNPQRSTVWXYZ" = Ok 5
  /\ canonical "0000000005GHJKMNPQRSTVWXYZ" = true
  /\ String.length "0000000005GHJKMNPQRSTVWXYZ" = 26%nat.
Proof.
  pose proof (generator_outputs 3 (two_reads 3 5) 1) as H.
  cbv zeta in H.
  change (nth_error (fst (fst (Ulid.calls 3 Ulid.monotonic (two_reads 3 5)))) 1)
    with (Some (@Ok string "0000000005GHJKMNPQRSTVWXYZ")) in H.
  destruct H as (A & B & C & _ & E).
  exact (conj A (conj B (conj C (E ltac:(discriminate))))).
Defined.

End SequencerMore.
(* ================================================================== *)
(** ** Rendering and parsing of URNs *)

Section UrnMore.

Lemma name_shape_impl (f f' r r' : ascii -> bool) (hi : nat) (s : string) :
  (forall c, f c = true -> f' c = true) ->
  (forall c, r c = true -> r' c = true) ->
  name_shape f r hi s = true -> name_shape f' r' hi s = true.
Proof.
  intros Hf Hr. destruct s as [|c p]; [discriminate|]. cbn.
  intros H. apply andb_true_iff in H. destruct H as [Hc H].
  apply andb_true_iff in H. destruct H as [Hp Hl].
  now rewrite (Hf c Hc), (all_chars_impl r r' p Hr Hp), Hl.
Qed.

Lemma app_name_either_case (s : string) :
  app_name s = true -> app_name_i s = true.
Proof.
  apply name_shape_impl; intros c; unfold is_letter;
    intros H; rewrite ?orb_true_iff in *; tauto.
Qed.

Lemma entity_name_either_case (s : string) :
  entity_name s = true -> entity_name_i s = true.
Proof.
  apply name_shape_impl; intros c; unfold is_letter;
    intros H; rewrite ?orb_true_iff in *; tauto.
Qed.

Lemma split_nonempty (sep : ascii) (s : string) : split sep s <> [].
Proof.
  destruct s as [|c s]; cbn; [discriminate|].
  destruct (Ascii.eqb c sep); [discriminate|].
  destruct (split sep s); discriminate.
Qed.

Lemma split_singleton (sep : ascii) (s x : string) :
  split sep s = [x] -> s = x.
Proof.
  revert x; induction s as [|c s IH]; intros x H; cbn in H.
  - now injection H.
  - destruct (Ascii.eqb c sep).
    + injection H as _ H. now apply split_nonempty in H.
    + destruct (split sep s) as [|p ps] eqn:E; [now apply split_nonempty in E|].
      injection H as <- ->. now rewrite (IH p eq_refl).
Qed.

(** A rendered triple is accepted by [Urn.isValid] exactly when its third
    part is accepted by [Ulid.isValid]. *)
Lemma rendered_valid (a e i : string) :
  app_name a = true -> entity_name e = true ->
  Urn.isValid (a ++ ":" ++ e ++ ":" ++ i) = Ulid.isValid i.
Proof.
  intros Ha He. apply Bool.eq_iff_eq_true.
  rewrite isValid_urn_shape, isValid_ulid_text. split.
  - intros (a' & e' & u' & E & Ha' & He' & Hu').
    apply (f_equal (split ":")) in E.
    rewrite (split_valid a' e' u' Ha' He' Hu') in E.
    change (a ++ ":" ++ e ++ ":" ++ i)
      with (a ++ String ":" (e ++ String ":" i)) in E.
    rewrite split_segment in E
      by (now apply app_name_i_no_colon, app_name_either_case).
    rewrite split_segment in E
      by (now apply entity_name_i_no_colon, entity_name_either_case).
    injection E as _ _ E. apply split_singleton in E. now subst.
  - intros Hu. exists a, e, i. repeat split; auto.
    + now apply app_name_either_case.
    + now apply entity_name_either_case.
Qed.

Lemma parse_rendered (a e i : string) :
  app_name a = true -> entity_name e = true -> Ulid.isValid i = true ->
  Urn.parse (a ++ ":" ++ e ++ ":" ++ i) = Ok (Urn.mkComponents a e i).
Proof.
  intros Ha He Hi. unfold Urn.parse.
  rewrite rendered_valid, Hi by assumption. cbn [negb].
  rewrite split_valid; [reflexivity | | | ].
  - now apply app_name_either_case.
  - now apply entity_name_either_case.
  - now rewrite <- isValid_ulid_text.
Qed.

(** [Urn.create] with an identifier in the options does not check it: it
    returns app:entity:id without reading the clock or the random source,
    and the result is accepted by [Urn.isValid], and parsed back into the
    three parts, exactly when the identifier is accepted by
    [Ulid.isValid]; otherwise [Urn.parse] throws INVALID_URN on it. *)
Theorem create_unchecked_id
        (a e i : string) (ts : option Z) (w : World) :
  app_name a = true -> entity_name e = true ->
  let u := a ++ ":" ++ e ++ ":" ++ i in
  Urn.create a e (Some (Urn.mkOptions ts (Some i))) w = (Ok u, w)
  /\ Urn.isValid u = Ulid.isValid i
  /\ (Ulid.isValid i = true -> Urn.parse u = Ok (Urn.mkComponents a e i))
  /\ (Ulid.isValid i = false -> Urn.parse u = Throw (UrnError INVALID_URN u)).
Proof.
  intros Ha He u. split; [|split; [|split]].
  - now rewrite create_with_id, Ha, He.
  - now apply rendered_valid.
  - intros Hi. now apply parse_rendered.
  - intros Hi. unfold Urn.parse. subst u.
    now rewrite rendered_valid, Hi by assumption.
Qed.

Lemma create_unchecked_id_witness :
  Urn.create "chai" "person" (Some (Urn.mkOptions None (Some "not-a-ulid")))
    (steady_world 5 7)
  = (Ok "chai:person:not-a-ulid", steady_world 5 7)
  /\ Urn.isValid "chai:person:not-a-ulid" = Ulid.isValid "not-a-ulid"
  /\ Urn.parse "chai:person:not-a-ulid"
     = Throw (UrnError INVALID_URN "chai:person:not-a-ulid").
Proof.
  pose proof (create_unchecked_id "chai" "person" "not-a-ulid" None
                (steady_world 5 7) eq_refl eq_refl) as H.
  cbv zeta in H. destruct H as (A & B & _ & D).
  exact (conj A (conj B (D eq_refl))).
Defined.

Lemma create_generated
      (a e : string) (options : option Urn.UrnCreateOptions) (w : World) :
  app_name a = true -> entity_name e = true -> Urn.id_of options = None ->
  let time := match Urn.timestamp_of options with
              | Some t => t
              | None => clock w (clock_reads w)
              end in
  let w1 := match Urn.timestamp_of options with
            | Some _ => w
            | None => snd (Date_now w)
            end in
  0 <= time <= TIME_MAX ->
  Urn.create a e options w
  = (Ok (a ++ ":" ++ e ++ ":" ++ digits TIME_LENGTH time
           ++ fst (encodeRandom RANDOM_LENGTH w1)),
     snd (encodeRandom RANDOM_LENGTH w1)).
Proof.
  intros Ha He Hid time w1 H. unfold Urn.create.
  rewrite test_APP_PATTERN, test_ENTITY_PATTERN, Ha, He, Hid. cbn [negb].
  pose proof (generate_clock_in_range (Urn.timestamp_of options) w H) as G.
  fold time w1 in G. unfold bind at 1. now rewrite G.
Qed.

(** Rendering then parsing: when no identifier is given and the time used
    (the timestamp of the options, an integer, or else the clock read) is
    an integer within 0..TIME_MAX, [Urn.create] returns a string that
    [Urn.isValid] accepts,
    [Urn.parse] returns the app, the entity and a valid ULID from it,
    [Urn.matches] holds for the app and the entity, and [Urn.timestamp] is
    the time used. *)
Theorem create_then_parse
        (a e : string) (options : option Urn.UrnCreateOptions) (w : World) :
  app_name a = true -> entity_name e = true -> Urn.id_of options = None ->
  let time := match Urn.timestamp_of options with
              | Some t => t
              | None => clock w (clock_reads w)
              end in
  0 <= time <= TIME_MAX ->
  exists u ulid w',
    Urn.create a e options w = (Ok u, w')
    /\ Urn.isValid u = true
    /\ Urn.parse u = Ok (Urn.mkComponents a e ulid)
    /\ Ulid.isValid ulid = true
    /\ UrnApi.matches u a e = Ok true
    /\ UrnApi.timestamp u = Ok time.
Proof.
  intros Ha He Hid time H.
  pose proof (create_generated a e options w Ha He Hid H) as C.
  cbv zeta in C. fold time in C.
  set (w1 := match Urn.timestamp_of options with
             | Some _ => w
             | None => snd (Date_now w)
             end) in *.
  set (ulid := digits TIME_LENGTH time ++ fst (encodeRandom RANDOM_LENGTH w1)).
  assert (V : Ulid.isValid ulid = true)
    by (apply canonical_ulid_valid, generated_canonical).
  assert (P : Urn.parse (a ++ ":" ++ e ++ ":" ++ ulid)
              = Ok (Urn.mkComponents a e ulid))
    by (now apply parse_rendered).
  exists (a ++ ":" ++ e ++ ":" ++ ulid), ulid,
         (snd (encodeRandom RANDOM_LENGTH w1)).
  split; [exact C|]. split; [now rewrite rendered_valid|].
  split; [exact P|]. split; [exact V|]. split.
  - unfold UrnApi.matches, UrnApi.isApp, UrnApi.isEntity, UrnApi.app,
      UrnApi.entity. rewrite P. cbn [Urn.app Urn.entity].
    unfold str_eq. now rewrite !String.eqb_refl.
  - unfold UrnApi.timestamp, UrnApi.id. rewrite P. cbn [Urn.id].
    unfold Ulid.timestamp, ulid.
    rewrite decodeTime_canonical
      by (apply length_digits || apply canonical_digits).
    rewrite value_of_digits, Z.mod_small; [reflexivity|].
    change (32 ^ Z.of_nat TIME_LENGTH) with (2 ^ 50).
    unfold TIME_MAX in H. lia.
Qed.

Lemma create_then_parse_witness :
  exists u ulid w',
    Urn.create "chai" "person"
      (Some (Urn.mkOptions (Some 1469918176385) None)) (steady_world 5 7)
    = (Ok u, w')
    /\ Urn.isValid u = true
    /\ Urn.parse u = Ok (Urn.mkComponents "chai" "person" ulid)
    /\ Ulid.isValid ulid = true
    /\ UrnApi.matches u "chai" "person" = Ok true
    /\ UrnApi.timestamp u = Ok 1469918176385.
Proof.
  apply (create_then_parse "chai" "person"
           (Some (Urn.mkOptions (Some 1469918176385) None))
           (steady_world 5 7) eq_refl eq_refl eq_refl).
  cbn. unfold TIME_MAX. lia.
Defined.

(** The three parsers agree.  On a string [Urn.isValid] accepts they all
    return the same components, whose parts joined by colons are the
    string, with no colon inside a part and a valid ULID as the third; on
    any other string [parse] throws INVALID_URN, [parseSafe] returns none
    and [parseEffect] fails with PARSE_ERROR, and neither of the two
    throws. *)
Theorem parsers_agree (s : string) :
  (Urn.isValid s = true ->
   exists c,
     Urn.parse s = Ok c
     /\ UrnApi.parseSafe s = Ok (Some c)
     /\ UrnApi.parseEffect s = Ok (Effect.succeed c)
     /\ s = Urn.app c ++ ":" ++ Urn.entity c ++ ":" ++ Urn.id c
     /\ all_chars no_colon (Urn.app c) = true
     /\ all_chars no_colon (Urn.entity c) = true
     /\ Ulid.isValid (Urn.id c) = true)
  /\ (Urn.isValid s = false ->
      Urn.parse s = Throw (UrnError INVALID_URN s)
      /\ UrnApi.parseSafe s = Ok None
      /\ UrnApi.parseEffect s = Ok (Effect.fail (UrnError PARSE_ERROR s))).
Proof.
  split.
  - intros H. destruct (parse_valid s H) as (a & e & u & E & Ha & He & Hu & P).
    exists (Urn.mkComponents a e u). cbn [Urn.app Urn.entity Urn.id].
    unfold UrnApi.parseSafe, UrnApi.parseEffect. rewrite H, P. cbn [negb].
    repeat split; auto.
    + now apply app_name_i_no_colon.
    + now apply entity_name_i_no_colon.
    + now rewrite isValid_ulid_text.
  - intros H. unfold Urn.parse, UrnApi.parseSafe, UrnApi.parseEffect.
    rewrite H. auto.
Qed.

Lemma parsers_agree_witness :
  exists c,
    Urn.parse "chai:person:01ARZ3NDEKTSV4RRFFQ69G5FAV" = Ok c
    /\ UrnApi.parseSafe "chai:person:01ARZ3NDEKTSV4RRFFQ69G5FAV" = Ok (Some c)
    /\ UrnApi.parseEffect "chai:person:01ARZ3NDEKTSV4RRFFQ69G5FAV"
       = Ok (Effect.succeed c)
    /\ "chai:person:01ARZ3NDEKTSV4RRFFQ69G5FAV"
       = Urn.app c ++ ":" ++ Urn.entity c ++ ":" ++ Urn.id c
    /\ all_chars no_colon (Urn.app c) = true
    /\ all_chars no_colon (Urn.entity c) = true
    /\ Ulid.isValid (Urn.id c) = true.
Proof.
  apply (proj1 (parsers_agree "chai:person:01ARZ3NDEKTSV4RRFFQ69G5FAV")).
  vm_compute. reflexivity.
Defined.

End UrnMore.
(* ================================================================== *)
(** ** Accessors, comparison and the app-scoped generators *)

Section UrnApiMore.

Lemma decode_prefix_valid (n : nat) (s : string) (acc : Z) :
  all_chars (fun c => is_symbol (upper_char c)) s = true ->
  (n <= String.length s)%nat ->
  exists v, decode_prefix n s acc = Ok v.
Proof.
  revert s acc; induction n as [|n IH]; intros s acc Hc Hl.
  - now exists acc.
  - destruct s as [|c s]; [simpl in Hl; lia|].
    cbn [all_chars] in Hc. apply andb_true_iff in Hc. destruct Hc as [Hc Hs].
    cbn [decode_prefix]. rewrite (decodeChar_upper_symbol c Hc).
    apply IH; [exact Hs | simpl in Hl; lia].
Qed.

Lemma valid_ulid_timestamp (i : string) :
  Ulid.isValid i = true ->
  exists v, Ulid.timestamp i = Ok v /\ 0 <= v < 2 ^ 50.
Proof.
  rewrite isValid_ulid_text. unfold ulid_text.
  intros H. apply andb_true_iff in H. destruct H as [Hl Hc].
  apply Nat.eqb_eq in Hl.
  destruct (decode_prefix_valid TIME_LENGTH i 0 Hc) as (v & Hv);
    [rewrite Hl; unfold TIME_LENGTH; lia|].
  exists v. unfold Ulid.timestamp. rewrite decodeTime_prefix.
  split; [exact Hv|].
  apply decode_prefix_range in Hv.
  change (32 ^ Z.of_nat TIME_LENGTH) with (2 ^ 50) in Hv. lia.
Qed.

(** The accessors throw exactly on the strings [Urn.isValid] rejects, and
    then the INVALID_URN error of [Urn.parse] with the string.  On a string
    it accepts they return the parts of [Urn.parse], [Urn.timestamp] returns
    a number below 2^50, and [Urn.matches] compares app and entity as they
    are written, letter case included. *)
Theorem accessors_follow_parse (s : string) :
  (Urn.isValid s = true ->
   exists c v,
     Urn.parse s = Ok c
     /\ UrnApi.app s = Ok (Urn.app c)
     /\ UrnApi.entity s = Ok (Urn.entity c)
     /\ UrnApi.id s = Ok (Urn.id c)
     /\ UrnApi.timestamp s = Ok v /\ 0 <= v < 2 ^ 50
     /\ forall x y,
          UrnApi.matches s x y
          = Ok (str_eq (Urn.app c) x && str_eq (Urn.entity c) y))
  /\ (Urn.isValid s = false ->
      let err := UrnError INVALID_URN s in
      UrnApi.app s = Throw err
      /\ UrnApi.entity s = Throw err
      /\ UrnApi.id s = Throw err
      /\ UrnApi.timestamp s = Throw err
      /\ forall x y,
           UrnApi.isApp s x = Throw err
           /\ UrnApi.isEntity s x = Throw err
           /\ UrnApi.matches s x y = Throw err
           /\ UrnApi.compare s x = Throw err).
Proof.
  split.
  - intros H. destruct (parse_valid s H) as (a & e & u & E & Ha & He & Hu & P).
    rewrite <- isValid_ulid_text in Hu.
    destruct (valid_ulid_timestamp u Hu) as (v & Hv & Hr).
    exists (Urn.mkComponents a e u), v.
    unfold UrnApi.matches, UrnApi.isApp, UrnApi.isEntity, UrnApi.timestamp,
      UrnApi.app, UrnApi.entity, UrnApi.id.
    rewrite P. cbn [Urn.app Urn.entity Urn.id].
    repeat split; auto; try lia.
    intros x y. now destruct (str_eq a x).
  - intros H err.
    unfold UrnApi.matches, UrnApi.isApp, UrnApi.isEntity, UrnApi.timestamp,
      UrnApi.compare, UrnApi.app, UrnApi.entity, UrnApi.id, Urn.parse.
    rewrite H. cbn [negb]. repeat split; reflexivity.
Qed.

Lemma accessors_follow_parse_witness :
  exists c v,
    Urn.parse "CHAI:person:01ARZ3NDEKTSV4RRFFQ69G5FAV" = Ok c
    /\ UrnApi.app "CHAI:person:01ARZ3NDEKTSV4RRFFQ69G5FAV" = Ok (Urn.app c)
    /\ UrnApi.entity "CHAI:person:01ARZ3NDEKTSV4RRFFQ69G5FAV"
       = Ok (Urn.entity c)
    /\ UrnApi.id "CHAI:person:01ARZ3NDEKTSV4RRFFQ69G5FAV" = Ok (Urn.id c)
    /\ UrnApi.timestamp "CHAI:person:01ARZ3NDEKTSV4RRFFQ69G5FAV" = Ok v
    /\ 0 <= v < 2 ^ 50
    /\ forall x y,
         UrnApi.matches "CHAI:person:01ARZ3NDEKTSV4RRFFQ69G5FAV" x y
         = Ok (str_eq (Urn.app c) x && str_eq (Urn.entity c) y).
Proof.
  apply (proj1 (accessors_follow_parse
                  "CHAI:person:01ARZ3NDEKTSV4RRFFQ69G5FAV")).
  vm_compute. reflexivity.
Defined.

Lemma ulid_compare_zero (a b : string) : Ulid.compare a b = 0 <-> a = b.
Proof.
  rewrite compare_by_cases. split.
  - destruct (String.compare a b) eqn:E; try discriminate.
    intros _. now apply String.compare_eq_iff.
  - intros ->. now rewrite compare_refl.
Qed.

(** [Urn.compare] looks at the identifiers alone: on two rendered URNs it
    is [Ulid.compare] of their identifiers, so it is 0 exactly when the
    identifiers are equal, whatever the apps and the entities, while
    [Urn.equals] holds only when all three parts are equal. *)
Theorem compare_ignores_names (a1 e1 i1 a2 e2 i2 : string) :
  app_name a1 = true -> entity_name e1 = true -> Ulid.isValid i1 = true ->
  app_name a2 = true -> entity_name e2 = true -> Ulid.isValid i2 = true ->
  let x := a1 ++ ":" ++ e1 ++ ":" ++ i1 in
  let y := a2 ++ ":" ++ e2 ++ ":" ++ i2 in
  UrnApi.compare x y = Ok (Ulid.compare i1 i2)
  /\ (UrnApi.compare x y = Ok 0 <-> i1 = i2)
  /\ (UrnApi.equals x y = true <-> a1 = a2 /\ e1 = e2 /\ i1 = i2).
Proof.
  intros Ha1 He1 Hi1 Ha2 He2 Hi2 x y.
  pose proof (parse_rendered a1 e1 i1 Ha1 He1 Hi1) as P1.
  pose proof (parse_rendered a2 e2 i2 Ha2 He2 Hi2) as P2.
  fold x in P1. fold y in P2.
  assert (C : UrnApi.compare x y = Ok (Ulid.compare i1 i2)).
  { unfold UrnApi.compare, UrnApi.id. now rewrite P1, P2. }
  split; [exact C|]. split.
  - rewrite C. split.
    + intros H. injection H as H. now apply ulid_compare_zero.
    + intros H. f_equal. now apply ulid_compare_zero.
  - unfold UrnApi.equals, str_eq. rewrite String.eqb_eq. split.
    + intros E. rewrite E, P2 in P1. injection P1 as -> -> ->. auto.
    + intros (-> & -> & ->). reflexivity.
Qed.

Lemma compare_ignores_names_witness :
  UrnApi.compare "chai:person:01ARZ3NDEKTSV4RRFFQ69G5FAV"
                 "clank:game:01ARZ3NDEKTSV4RRFFQ69G5FAV" = Ok 0
  /\ UrnApi.equals "chai:person:01ARZ3NDEKTSV4RRFFQ69G5FAV"
                   "clank:game:01ARZ3NDEKTSV4RRFFQ69G5FAV" = false.
Proof.
  pose proof (compare_ignores_names
                "chai" "person" "01ARZ3NDEKTSV4RRFFQ69G5FAV"
                "clank" "game" "01ARZ3NDEKTSV4RRFFQ69G5FAV"
                eq_refl eq_refl eq_refl eq_refl eq_refl eq_refl) as H.
  cbv zeta in H. destruct H as (_ & B & _).
  split; [apply B; reflexivity | reflexivity].
Defined.

(** [Urn.forApp] checks the app once: it throws INVALID_APP for a string
    that is not an app name, and otherwise returns a generator that does
    what [Urn.create] does for that app and never throws INVALID_APP.
    [Urn.forAppEffect] fails or succeeds on the same strings. *)
Theorem forApp_checks_once (a : string) (w : World) :
  (app_name a = false ->
   UrnApi.forApp a = Throw (UrnError INVALID_APP a)
   /\ UrnApi.forAppEffect a w = (Effect.Failure (UrnError INVALID_APP a), w))
  /\ (app_name a = true ->
      exists f,
        UrnApi.forApp a = Ok f
        /\ UrnApi.forAppEffect a w = (Effect.Success f, w)
        /\ forall e o w0,
             f e o w0 = Urn.create a e o w0
             /\ forall x, fst (f e o w0) <> Throw (UrnError INVALID_APP x)).
Proof.
  unfold UrnApi.forApp, UrnApi.forAppEffect, validateApp.
  rewrite test_APP_PATTERN. split; intros H; rewrite H; cbn [negb].
  - split; reflexivity.
  - eexists. split; [reflexivity|]. split; [reflexivity|].
    intros e o w0. split; [reflexivity|]. intros x.
    unfold Urn.create. rewrite test_APP_PATTERN, H. cbn [negb].
    destruct (negb (RegExp.test ENTITY_PATTERN e)); [discriminate|].
    unfold bind, ret.
    destruct (Urn.id_of o) as [i|]; [discriminate|].
    unfold Ulid.generate, bind, ret, lift, read.
    destruct (Urn.timestamp_of o) as [t|]; cbn [Date_now];
      match goal with
      | |- context [encodeTime ?t ?n] => destruct (encodeTime t n) as [s|err] eqn:E
      end;
      try (destruct (encodeRandom RANDOM_LENGTH _)); cbn; try discriminate;
      unfold encodeTime in E;
      match type of E with
      | (if ?b then _ else _) = _ => destruct b
      end; try discriminate; injection E as <-; discriminate.
Qed.

Lemma forApp_checks_once_witness :
  UrnApi.forApp "CHAI" = Throw (UrnError INVALID_APP "CHAI")
  /\ exists f,
       UrnApi.forApp "chai" = Ok f
       /\ UrnApi.forAppEffect "chai" (steady_world 5 7)
          = (Effect.Success f, steady_world 5 7)
       /\ forall e o w0,
            f e o w0 = Urn.create "chai" e o w0
            /\ forall x, fst (f e o w0) <> Throw (UrnError INVALID_APP x).
Proof.
  split.
  - apply (proj1 (forApp_checks_once "CHAI" (steady_world 5 7))). reflexivity.
  - apply (proj2 (forApp_checks_once "chai" (steady_world 5 7))). reflexivity.
Defined.

End UrnApiMore.
(* ================================================================== *)
(** ** The validators and [Urn.createEffect] *)

Section CreateEffect.

Lemma name_shape_length (f r : ascii -> bool) (hi : nat) (s : string) :
  name_shape f r hi s = true -> (1 <= String.length s <= S hi)%nat.
Proof.
  destruct s as [|c p]; [discriminate|]. cbn.
  intros H. apply andb_true_iff in H. destruct H as [_ H].
  apply andb_true_iff in H. destruct H as [_ H].
  apply Nat.leb_le in H. lia.
Qed.

(** [validateApp] succeeds with the string on the app names and fails with
    INVALID_APP and the string on every other string, [validateEntity]
    likewise with the entity names and INVALID_ENTITY; neither touches the
    world.  An app name has 1 to 32 characters, an entity name 1 to 64, and
    every app name is an entity name. *)
Theorem validators_languages (s : string) (w : World) :
  validateApp s w
  = (if app_name s then Effect.Success s
     else Effect.Failure (UrnError INVALID_APP s), w)
  /\ validateEntity s w
     = (if entity_name s then Effect.Success s
        else Effect.Failure (UrnError INVALID_ENTITY s), w)
  /\ (app_name s = true ->
      (1 <= String.length s <= 32)%nat /\ entity_name s = true)
  /\ (entity_name s = true -> (1 <= String.length s <= 64)%nat).
Proof.
  unfold validateApp, validateEntity.
  rewrite test_APP_PATTERN, test_ENTITY_PATTERN.
  split; [now destruct (app_name s)|].
  split; [now destruct (entity_name s)|]. split.
  - intros H. split; [now apply name_shape_length in H|].
    revert H. unfold app_name, entity_name.
    destruct s as [|c p]; [discriminate|]. cbn.
    intros H. apply andb_true_iff in H. destruct H as [Hc H].
    apply andb_true_iff in H. destruct H as [Hp Hl].
    rewrite Hc. cbn [andb]. apply andb_true_iff. split.
    + revert Hp. apply all_chars_impl. intros x Hx. now rewrite Hx.
    + apply Nat.leb_le in Hl. apply Nat.leb_le. lia.
  - intros H. now apply name_shape_length in H.
Qed.

Lemma validators_languages_witness :
  (1 <= String.length "myapp123" <= 32)%nat /\ entity_name "myapp123" = true.
Proof.
  apply (proj1 (proj2 (proj2 (validators_languages "myapp123"
                                (steady_world 5 7))))).
  reflexivity.
Defined.

(** [Urn.createEffect] reports what [Urn.create] throws for a bad app or
    entity as a typed failure.  With valid names it generates a ULID in
    every case, also when the options carry an identifier.  The time used
    is the timestamp of the options, an integer, or else the clock read.
    When that integer is within 0..TIME_MAX the effect succeeds with
    app:entity:id, the identifier being the one of the options if any and
    the generated one otherwise, having drawn sixteen random values; when
    it is an integer below 0 or above TIME_MAX the effect dies with the
    RangeError, where [Urn.create] with an identifier in the options still
    returns.  A timestamp that is no integer is not covered. *)
Theorem createEffect_outcomes
        (a e : string) (options : option Urn.UrnCreateOptions) (w : World) :
  let time := match Urn.timestamp_of options with
              | Some t => t
              | None => clock w (clock_reads w)
              end in
  let w1 := match Urn.timestamp_of options with
            | Some _ => w
            | None => snd (Date_now w)
            end in
  (app_name a = false ->
   UrnApi.createEffect a e options w
   = (Effect.Failure (UrnError INVALID_APP a), w))
  /\ (app_name a = true -> entity_name e = false ->
      UrnApi.createEffect a e options w
      = (Effect.Failure (UrnError INVALID_ENTITY e), w))
  /\ (app_name a = true -> entity_name e = true ->
      0 <= time <= TIME_MAX ->
      exists ulid w',
        Ulid.generate (Urn.timestamp_of options) w = (Ok ulid, w')
        /\ entropy_used w' = (entropy_used w + 16)%nat
        /\ UrnApi.createEffect a e options w
           = (Effect.Success
                (a ++ ":" ++ e ++ ":"
                 ++ match Urn.id_of options with
                    | Some i => i
                    | None => ulid
                    end), w'))
  /\ (app_name a = true -> entity_name e = true ->
      time < 0 \/ time > TIME_MAX ->
      UrnApi.createEffect a e options w = (Effect.Die (RangeError time), w1)
      /\ forall i, Urn.id_of options = Some i ->
                   Urn.create a e options w = (Ok (a ++ ":" ++ e ++ ":" ++ i), w)).
Proof.
  intros time w1.
  unfold UrnApi.createEffect, Effect.all2, Effect.map, Effect.flatMap,
    Effect.succeed, UrnApi.generateEffect, Effect.sync,
    validateApp, validateEntity, Effect.fail.
  rewrite test_APP_PATTERN, test_ENTITY_PATTERN.
  split; [|split; [|split]].
  - now intros ->.
  - now intros -> ->.
  - intros -> -> H. cbn [negb].
    cbv beta iota delta [Effect.succeed Effect.fail].
    pose proof (generate_clock_in_range (Urn.timestamp_of options) w H) as G.
    cbv zeta in G. fold time w1 in G.
    eexists. eexists. split; [exact G|]. split.
    + unfold w1. destruct (Urn.timestamp_of options); reflexivity.
    + now rewrite G.
  - intros Ha He H. rewrite Ha, He. cbn [negb].
    cbv beta iota delta [Effect.succeed Effect.fail].
    pose proof (generate_out_of_range (Urn.timestamp_of options) w H) as G.
    cbv zeta in G. fold time w1 in G. rewrite G. split; [reflexivity|].
    intros i Hi. unfold Urn.create.
    now rewrite test_APP_PATTERN, test_ENTITY_PATTERN, Ha, He, Hi.
Qed.

Lemma createEffect_outcomes_witness :
  UrnApi.createEffect "chai" "person"
    (Some (Urn.mkOptions (Some (-1)) (Some "01ARZ3NDEKTSV4RRFFQ69G5FAV")))
    (steady_world 5 7)
  = (Effect.Die (RangeError (-1)), steady_world 5 7)
  /\ Urn.create "chai" "person"
       (Some (Urn.mkOptions (Some (-1)) (Some "01ARZ3NDEKTSV4RRFFQ69G5FAV")))
       (steady_world 5 7)
     = (Ok "chai:person:01ARZ3NDEKTSV4RRFFQ69G5FAV", steady_world 5 7).
Proof.
  pose proof (proj2 (proj2 (proj2
    (createEffect_outcomes "chai" "person"
       (Some (Urn.mkOptions (Some (-1)) (Some "01ARZ3NDEKTSV4RRFFQ69G5FAV")))
       (steady_world 5 7)))) eq_refl eq_refl (or_introl eq_refl)) as H.
  destruct H as [A B]. split; [exact A | exact (B _ eq_refl)].
Defined.

End CreateEffect.

(* ================================================================== *)
(** ** Pagination *)

Section PaginationFacts.

Import Pagination.



Lemma ceil_div_spec (a b : Z) :
  0 < b -> (- ((- a) / b) - 1) * b < a <= - ((- a) / b) * b.
Proof.
  intros Hb.
  pose proof (Z.div_mod (- a) b ltac:(lia)) as E.
  pose proof (Z.mod_pos_bound (- a) b Hb) as M.
  nia.
Qed.

(** Below 2^53 the integers are doubles and the quotients of the code
    round as the exact ones do.  For a positive limit and integers total
    and offset that are not negative, all three below 2^53, the page
    numbers of [createPaginationMeta] are integers: [totalPages] is the
    least number of pages of [limit] items that hold [total] items, and
    [currentPage], at least 1, is the page that holds the item at
    [offset]. *)
Theorem meta_page_numbers (total limit offset : Z) :
  0 < limit < 2 ^ 53 -> 0 <= total < 2 ^ 53 -> 0 <= offset < 2 ^ 53 ->
  exists pages page,
    totalPages (createPaginationMeta total limit offset) = Int pages
    /\ currentPage (createPaginationMeta total limit offset) = Int page
    /\ 0 <= pages
    /\ (pages - 1) * limit < total <= pages * limit
    /\ 1 <= page
    /\ (page - 1) * limit <= offset < page * limit.
Proof.
  intros [Hl _] [Ht _] [Ho _].
  exists (- ((- total) / limit)), (offset / limit + 1).
  unfold createPaginationMeta, ceil_div, floor_div_plus_1. cbn.
  replace (limit =? 0) with false by (symmetry; apply Z.eqb_neq; lia).
  pose proof (ceil_div_spec total limit Hl) as C.
  pose proof (Z.div_mod offset limit ltac:(lia)) as E.
  pose proof (Z.mod_pos_bound offset limit Hl) as M.
  pose proof (Z.div_pos offset limit Ho Hl) as P.
  repeat split; try lia; nia.
Qed.

Lemma meta_page_numbers_witness :
  exists pages page,
    totalPages (createPaginationMeta 45 20 40) = Int pages
    /\ currentPage (createPaginationMeta 45 20 40) = Int page
    /\ 0 <= pages
    /\ (pages - 1) * 20 < 45 <= pages * 20
    /\ 1 <= page
    /\ (page - 1) * 20 <= 40 < page * 20.
Proof.
  apply (meta_page_numbers 45 20 40); lia.
Defined.

(** [hasMore] against the page numbers, for a positive limit and integers
    total and offset that are not negative, all three below 2^53.
    [hasMore] says that the page after this one is not empty.  When it
    holds the current page is before the last.  The converse holds for an
    offset that is a multiple of the limit, and for no other offset: with
    the total offset + limit (below 2^53) there are no more items and the
    current page is before the last.  Past the end (offset at or beyond
    total) [hasMore] is false and the current page is not capped: it is at
    least the total pages, and beyond them for an offset that is a
    multiple of the limit. *)
Theorem meta_hasMore (total limit offset : Z) :
  0 < limit < 2 ^ 53 -> 0 <= total < 2 ^ 53 -> 0 <= offset < 2 ^ 53 ->
  let m := createPaginationMeta total limit offset in
  exists pages page,
    totalPages m = Int pages /\ currentPage m = Int page
    /\ (hasMore m = true <-> offset + limit < total)
    /\ (hasMore m = true -> page < pages)
    /\ ((exists k, offset = k * limit) -> (hasMore m = true <-> page < pages))
    /\ ((forall k, offset <> k * limit) -> offset + limit < 2 ^ 53 ->
        let m' := createPaginationMeta (offset + limit) limit offset in
        hasMore m' = false
        /\ currentPage m' = Int page
        /\ exists pages', totalPages m' = Int pages' /\ page < pages')
    /\ (total <= offset ->
        hasMore m = false /\ pages <= page
        /\ ((exists k, offset = k * limit) -> pages < page)).
Proof.
  intros [Hl _] [Ht _] [Ho _] m. subst m.
  exists (- ((- total) / limit)), (offset / limit + 1).
  unfold createPaginationMeta, ceil_div, floor_div_plus_1. cbn.
  replace (limit =? 0) with false by (symmetry; apply Z.eqb_neq; lia).
  pose proof (ceil_div_spec total limit Hl) as C.
  pose proof (Z.div_mod offset limit ltac:(lia)) as E.
  pose proof (Z.mod_pos_bound offset limit Hl) as M.
  rewrite Z.ltb_lt.
  split; [reflexivity|]. split; [reflexivity|]. split; [tauto|].
  split; [intros H; nia|]. split; [|split].
  - intros (k & Hk). subst offset.
    rewrite Z.div_mul in * by lia. rewrite Z.mod_mul in * by lia.
    split; intros H; nia.
  - intros Hk _. split; [apply Z.ltb_irrefl|]. split; [reflexivity|].
    eexists. split; [reflexivity|].
    pose proof (ceil_div_spec (offset + limit) limit Hl) as C'.
    assert (R : offset mod limit <> 0).
    { intros R. apply (Hk (offset / limit)). lia. }
    nia.
  - intros H. split; [apply Z.ltb_ge; lia|]. split; [nia|].
    intros (k & Hk). subst offset.
    rewrite Z.div_mul in * by lia. nia.
Qed.

Lemma meta_hasMore_witness :
  (exists pages page,
     totalPages (createPaginationMeta 45 20 20) = Int pages
     /\ currentPage (createPaginationMeta 45 20 20) = Int page
     /\ hasMore (createPaginationMeta 45 20 20) = true
     /\ page < pages)
  /\ (exists pages page,
        totalPages (createPaginationMeta 45 20 60) = Int pages
        /\ currentPage (createPaginationMeta 45 20 60) = Int page
        /\ hasMore (createPaginationMeta 45 20 60) = false
        /\ pages < page)
  /\ (exists pages page,
        totalPages (createPaginationMeta 27 20 7) = Int pages
        /\ currentPage (createPaginationMeta 27 20 7) = Int page
        /\ hasMore (createPaginationMeta 27 20 7) = false
        /\ page < pages).
Proof.
  split; [|split].
  - destruct (meta_hasMore 45 20 20 ltac:(lia) ltac:(lia) ltac:(lia))
      as (pages & page & Hp & Hc & Hm & Hlt & _).
    exists pages, page.
    assert (M : hasMore (createPaginationMeta 45 20 20) = true)
      by (apply Hm; lia).
    split; [exact Hp | split; [exact Hc | split; [exact M | exact (Hlt M)]]].
  - destruct (meta_hasMore 45 20 60 ltac:(lia) ltac:(lia) ltac:(lia))
      as (pages & page & Hp & Hc & _ & _ & _ & _ & He).
    exists pages, page.
    destruct (He ltac:(lia)) as (M & _ & Hk).
    split; [exact Hp | split; [exact Hc | split; [exact M |]]].
    apply Hk. exists 3. reflexivity.
  - destruct (meta_hasMore 0 20 7 ltac:(lia) ltac:(lia) ltac:(lia))
      as (pages & page & _ & _ & _ & _ & _ & Hn & _).
    destruct (Hn ltac:(intros k; lia) ltac:(lia))
      as (M & Hc & pages' & Hp & Hlt).
    exists pages', page.
    split; [exact Hp | split; [exact Hc | split; [exact M | exact Hlt]]].
Defined.

(** A limit of 0, which [normalizePaginationParams] lets through, makes
    the page numbers of [createPaginationMeta] no numbers of pages, for
    integers total and offset that are not negative, below 2^53:
    [totalPages] is NaN for total 0 and infinite for a positive total,
    and [currentPage] is NaN for offset 0 and infinite for a positive
    offset; [hasMore] tells whether offset is below total, and
    [createPaginatedResponse] passes the limit on unchanged.  The infinity
    is Infinity for the zero of the integers; the sign that a negative
    zero gives it is not told here. *)
Theorem meta_limit_zero {T} (data : list T) (total offset : Z) :
  0 <= total < 2 ^ 53 -> 0 <= offset < 2 ^ 53 ->
  let p := normalizePaginationParams
             (Some (mkParams (Some 0) (Some offset) None None)) in
  let r := createPaginatedResponse data total
             (mkParams (Some (n_limit p)) (Some (n_offset p)) None None) in
  Pagination.data r = data
  /\ m_limit (meta r) = 0
  /\ (forall pages, totalPages (meta r) <> Int pages)
  /\ (totalPages (meta r) = NaN <-> total = 0)
  /\ (0 < total ->
      totalPages (meta r) = Infinity \/ totalPages (meta r) = NegInfinity)
  /\ (forall page, currentPage (meta r) <> Int page)
  /\ (currentPage (meta r) = NaN <-> offset = 0)
  /\ (0 < offset ->
      currentPage (meta r) = Infinity \/ currentPage (meta r) = NegInfinity)
  /\ hasMore (meta r) = (offset <? total).
Proof.
  intros [Ht _] [Ho _] p r. subst p r.
  unfold createPaginatedResponse, normalizePaginationParams,
    createPaginationMeta, ceil_div, floor_div_plus_1, or_default.
  cbn.
  assert (A : forall x, 0 <= x ->
                let v := if 0 <? x then Infinity
                         else if x <? 0 then NegInfinity else NaN in
                (forall z, v <> Int z) /\ (v = NaN <-> x = 0)
                /\ (0 < x -> v = Infinity \/ v = NegInfinity)).
  { intros x Hx. cbv zeta. destruct (Z.ltb_spec 0 x) as [L|L].
    - repeat split; try discriminate; try lia. now left.
    - replace (x <? 0) with false by (symmetry; apply Z.ltb_ge; lia).
      repeat split; try discriminate; try lia. }
  destruct (A total Ht) as (A1 & A2 & A3).
  destruct (A offset Ho) as (B1 & B2 & B3).
  repeat split; try assumption; try apply A2; try apply B2.
  now rewrite Z.add_0_r.
Qed.

Lemma meta_limit_zero_witness :
  (forall pages,
     totalPages (meta (createPaginatedResponse [1; 2; 3] 3
                         (mkParams (Some 0) (Some 0) None None)))
     <> Int pages)
  /\ currentPage (meta (createPaginatedResponse [1; 2; 3] 3
                          (mkParams (Some 0) (Some 0) None None))) = NaN.
Proof.
  pose proof (meta_limit_zero [1; 2; 3] 3 0 ltac:(lia) ltac:(lia)) as H.
  cbv zeta in H. destruct H as (_ & _ & A & _ & _ & _ & B & _).
  split; [exact A | now apply B].
Defined.

End PaginationFacts.

(* ================================================================== *)
(** ** [decodeChar] on every string of the host *)

Section WideDecodeChar.

Import Wide.
Local Open Scope list_scope.

Lemma ustr_eq_spec (a b : ustring) : ustr_eq a b = true <-> a = b.
Proof.
  revert b. induction a as [|x a IH]; intros [|y b]; cbn;
    try (split; [discriminate | congruence]); [tauto|].
  rewrite andb_true_iff, N.eqb_eq, IH. split; [intros [-> ->] | intros E];
    [reflexivity | now inversion E].
Qed.

Lemma ustr_eq_false (a b : ustring) : a <> b -> ustr_eq a b = false.
Proof.
  intros N. destruct (ustr_eq a b) eqn:E; [|reflexivity].
  now apply ustr_eq_spec in E.
Qed.







Lemma of_string_cons (c : ascii) (s : string) :
  of_string (String c s) = N_of_ascii c :: of_string s.
Proof. reflexivity. Qed.

Lemma N_of_ascii_inj (a b : ascii) : N_of_ascii a = N_of_ascii b -> a = b.
Proof.
  intros H. rewrite <- (ascii_N_embedding a), <- (ascii_N_embedding b).
  now rewrite H.
Qed.

Lemma ustr_eq_of_string (a b : string) :
  ustr_eq (of_string a) (of_string b) = str_eq a b.
Proof.
  unfold str_eq. destruct (String.eqb_spec a b) as [->|N].
  - now apply ustr_eq_spec.
  - apply ustr_eq_false. intros E. apply N. clear N. revert b E.
    induction a as [|x a IH]; intros [|y b] E; try discriminate E;
      [reflexivity|].
    rewrite !of_string_cons in E. inversion E.
    f_equal; [now apply N_of_ascii_inj | now apply IH].
Qed.

Lemma starts_with_of_string (s x : string) :
  starts_with (of_string s) (of_string x) = String.prefix x s.
Proof.
  revert s. induction x as [|a x IH]; intros s; [now destruct s|].
  destruct s as [|b s]; [reflexivity|].
  rewrite !of_string_cons. cbn [starts_with String.prefix].
  destruct (ascii_dec a b) as [->|N].
  - now rewrite N.eqb_refl, IH.
  - replace (N_of_ascii a =? N_of_ascii b)%N with false; [reflexivity|].
    symmetry. apply N.eqb_neq. intros E. now apply N, N_of_ascii_inj.
Qed.

Lemma indexOf_of_string (s x : string) :
  Wide.indexOf (of_string s) (of_string x) = Js.indexOf s x.
Proof.
  unfold Wide.indexOf, Js.indexOf.
  assert (G : forall i, indexOf_from i (of_string s) (of_string x)
                        = match String.index 0 x s with
                          | Some n => i + Z.of_nat n
                          | None => -1
                          end).
  { induction s as [|b s IH]; intros i.
    - cbn [indexOf_from of_string list_ascii_of_string List.map].
      change (@nil N) with (of_string "") at 1.
      rewrite starts_with_of_string.
      destruct x as [|a x]; cbn; [f_equal; lia | reflexivity].
    - rewrite of_string_cons. cbn [indexOf_from].
      change (N_of_ascii b :: of_string s) with (of_string (String b s)).
      rewrite starts_with_of_string.
      cbn [String.index]. destruct (String.prefix x (String b s)) eqn:P.
      + cbn. lia.
      + rewrite IH. destruct (String.index 0 x s) as [n|]; [|reflexivity].
        rewrite Nat2Z.inj_succ. lia. }
  rewrite G. now destruct (String.index 0 x s).
Qed.

Lemma upper_excerpt_of_string (s : string) :
  upper_excerpt (of_string s) = of_string (Js.toUpperCase s).
Proof.
  induction s as [|c s IH]; [reflexivity|].
  rewrite of_string_cons. cbn [Js.toUpperCase]. rewrite of_string_cons.
  unfold upper_excerpt in *. cbn [flat_map]. rewrite IH. clear IH.
  f_equal.
  destruct c as [[] [] [] [] [] [] [] []]; reflexivity.
Qed.

(** On the strings of [Js], whose code units are below 256, this is the
    [decodeChar] of [Encoding]. *)
Lemma decodeChar_on_bytes (char : string) :
  Wide.decodeChar upper_excerpt (of_string char)
  = of_result char (Encoding.decodeChar char).
Proof.
  unfold Wide.decodeChar, Encoding.decodeChar.
  rewrite upper_excerpt_of_string, !ustr_eq_of_string.
  destruct (str_eq (Js.toUpperCase char) "I" || str_eq (Js.toUpperCase char) "L");
    [reflexivity|].
  destruct (str_eq (Js.toUpperCase char) "O"); [reflexivity|].
  destruct (str_eq (Js.toUpperCase char) "U"); [reflexivity|].
  unfold Wide.ENCODING. rewrite indexOf_of_string.
  now destruct (Js.indexOf UlidConstants.ENCODING (Js.toUpperCase char) =? -1).
Qed.

End WideDecodeChar.
